(** * Secret Picture Gallery: the EncryptedGallery contract and the client-side
      cipher utilities, embedded in Rocq.

    Part I  ([Module Gallery]) embeds [contracts/EncryptedGallery.sol]:
    storage as finite maps with Solidity's zero default, the function bodies
    in a small state-and-revert monad, a transaction layer that moves
    [msg.value] and discards every write of a reverted call.

    Part II ([Module Crypto]) embeds [app/src/utils/crypto.ts] and the key
    handling of [app/src/components/GalleryApp.tsx], over a model of the
    browser's AES-256-GCM.

    Part III ([Module PseudoIpfs]) embeds [app/src/utils/ipfs.ts], Part IV
    ([Module Frontend]) the gallery listing of [GalleryApp.tsx].

    The definitions come first; the modules after them hold what is proved. *)

From Stdlib Require Import ZArith Lia Ascii String.
From stdpp Require Import base option list gmap strings.

Local Open Scope Z_scope.

Module Gallery.

(** ** Solidity value types *)

(** [address] is a 160-bit integer, [uint256] a 256-bit one, [euint256] the
    32-byte handle of a sealed value of the FHE library. *)
Definition address := Z.
Definition uint256 := Z.
Definition euint256 := Z.

Definition MAX_UINT256 : Z := 2 ^ 256 - 1.

(** [uint256 public constant ACCESS_PRICE = 0.001 ether;] *)
Definition ACCESS_PRICE : Z := 10 ^ 15.

(** [struct EncryptedImage] *)
Record EncryptedImage := mkImage {
  creator : address;
  ipfsHash : string;
  encryptedKey : euint256;
  createdAt : uint256
}.

(** The value every slot of [_images] holds before it is written. *)
Definition zeroImage : EncryptedImage :=
  {| creator := 0; ipfsHash := EmptyString; encryptedKey := 0; createdAt := 0 |}.

Inductive Event :=
| ImageListed (imageId : uint256) (creator_ : address) (ipfsHash_ : string)
| ImagePurchased (imageId : uint256) (buyer : address) (pricePaid : uint256)
| AccessGranted (imageId : uint256) (account : address).

(** ** The world a call runs in

    The three storage variables of the contract, plus the pieces of chain
    state its calls touch: the allow-list of the FHE access-control contract
    ([FHE.allow] / [FHE.allowThis] add a pair (handle, account) to it), the
    ether balances, and the event log.  [self] is [address(this)]; no
    operation writes it. *)
Record World := mkWorld {
  self : address;
  _nextImageId : uint256;
  _images : gmap Z EncryptedImage;
  _hasPurchased : gmap (Z * Z) bool;
  acl : gset (Z * Z);
  balances : gmap Z Z;
  events : list Event
}.

(** Solidity mappings are total: an absent key reads as the zero value. *)
Definition images_at (w : World) (imageId : Z) : EncryptedImage :=
  default zeroImage (_images w !! imageId).

Definition purchased_at (w : World) (imageId : Z) (account : address) : bool :=
  default false (_hasPurchased w !! (imageId, account)).

Definition balance (w : World) (a : address) : Z :=
  default 0 (balances w !! a).

Definition allowed (w : World) (handle : euint256) (account : address) : bool :=
  bool_decide ((handle, account) ∈ acl w).

(** ** The environment of one call

    [fromExternal] is the input-proof check of [FHE.fromExternal]: [None]
    when the proof is rejected (the call reverts), otherwise the handle.
    [accepts to v] is the outcome of the plain value call
    [to.call{value: v}("")]: the recipient is taken not to call back into
    the gallery. *)
Record Env := mkEnv {
  msg_sender : address;
  msg_value : uint256;
  block_timestamp : uint256;
  fromExternal : Z -> list Z -> option euint256;
  accepts : address -> Z -> bool
}.

(** ** Reverts *)

Inductive Failure :=
| Revert (reason : string)     (* require(..., reason) failed *)
| Panic (code : Z)             (* checked arithmetic: Panic(0x11) *)
| RevertNoReason               (* value sent to a non-payable function *)
| InputRejected                (* FHE.fromExternal refused the proof *)
| OutOfFunds.                  (* sender cannot afford msg.value *)

Inductive Result (A : Type) :=
| Ok (a : A)
| Err (f : Failure).
Arguments Ok {A} a.
Arguments Err {A} f.

(** A function body: reads and writes the world, or reverts. *)
Definition M (A : Type) : Type := World -> Result (A * World).

Definition ret_ {A} (a : A) : M A := fun w => Ok (a, w).

Definition bind_ {A B} (m : M A) (k : A -> M B) : M B :=
  fun w => match m w with
           | Ok (a, w') => k a w'
           | Err f => Err f
           end.

#[global] Instance M_ret : MRet M := @ret_.
#[global] Instance M_bind : MBind M := fun A B k m => bind_ m k.

Definition get_ : M World := fun w => Ok (w, w).
Definition modify_ (f : World -> World) : M unit := fun w => Ok (tt, f w).
Definition fail_ {A} (f : Failure) : M A := fun _ => Err f.

Definition require (cond : bool) (reason : string) : M unit :=
  if cond then ret_ tt else fail_ (Revert reason).

(** ** Storage writes *)

Definition set_nextImageId (n : uint256) (w : World) : World :=
  mkWorld (self w) n (_images w) (_hasPurchased w) (acl w) (balances w) (events w).

Definition set_image (imageId : Z) (img : EncryptedImage) (w : World) : World :=
  mkWorld (self w) (_nextImageId w) (<[imageId := img]> (_images w))
          (_hasPurchased w) (acl w) (balances w) (events w).

Definition set_purchased (imageId : Z) (account : address) (w : World) : World :=
  mkWorld (self w) (_nextImageId w) (_images w)
          (<[(imageId, account) := true]> (_hasPurchased w))
          (acl w) (balances w) (events w).

Definition acl_add (handle : euint256) (account : address) (w : World) : World :=
  mkWorld (self w) (_nextImageId w) (_images w) (_hasPurchased w)
          ({[ (handle, account) ]} ∪ acl w) (balances w) (events w).

Definition set_balance (a : address) (v : Z) (w : World) : World :=
  mkWorld (self w) (_nextImageId w) (_images w) (_hasPurchased w) (acl w)
          (<[a := v]> (balances w)) (events w).

Definition log_event (e : Event) (w : World) : World :=
  mkWorld (self w) (_nextImageId w) (_images w) (_hasPurchased w) (acl w)
          (balances w) (events w ++ [e]).

(** Moving [v] wei: debit first, then credit. *)
Definition transfer (from to : address) (v : Z) (w : World) : World :=
  let w1 := set_balance from (balance w from - v) w in
  set_balance to (balance w1 to + v) w1.

(** ** Library and chain primitives used by the contract

    [FHE.allow] and [FHE.allowThis] record a pair in the allow-list.  (The
    access-control contract lets a caller grant only on handles it is itself
    allowed on; the gallery is, on every handle it stores, transiently after
    [FHE.fromExternal] and for good after [FHE.allowThis] at listing.) *)

Definition FHE_fromExternal (env : Env) (h : Z) (proof : list Z) : M euint256 :=
  match fromExternal env h proof with
  | Some k => ret_ k
  | None => fail_ InputRejected
  end.

Definition FHE_allow (handle : euint256) (account : address) : M unit :=
  modify_ (acl_add handle account).

Definition FHE_allowThis (handle : euint256) : M unit :=
  fun w => Ok (tt, acl_add handle (self w) w).

Definition emit (e : Event) : M unit := modify_ (log_event e).

(** [to.call{value: v}("")]: [sent] is false when the contract cannot cover
    [v] or the recipient refuses; nothing moves then. *)
Definition call_value (env : Env) (to : address) (v : Z) : M bool :=
  fun w =>
    if accepts env to v && (v <=? balance w (self w))
    then Ok (true, transfer (self w) to v w)
    else Ok (false, w).

(** [++_nextImageId] under Solidity 0.8 checked arithmetic. *)
Definition pre_increment_nextImageId : M uint256 :=
  fun w =>
    if _nextImageId w <? MAX_UINT256
    then Ok (_nextImageId w + 1, set_nextImageId (_nextImageId w + 1) w)
    else Err (Panic 17).

(** ** The contract's functions *)

Definition listEncryptedImage (env : Env)
    (ipfsHash_ : string) (encryptedKey_ : Z) (inputProof : list Z) : M uint256 :=
  require (bool_decide (0 < String.length ipfsHash_)%nat) "Invalid hash" ;;
  storedKey ← FHE_fromExternal env encryptedKey_ inputProof;
  imageId ← pre_increment_nextImageId;
  modify_ (set_image imageId
             {| creator := msg_sender env;
                ipfsHash := ipfsHash_;
                encryptedKey := storedKey;
                createdAt := block_timestamp env |}) ;;
  FHE_allowThis storedKey ;;
  FHE_allow storedKey (msg_sender env) ;;
  emit (ImageListed imageId (msg_sender env) ipfsHash_) ;;
  ret_ imageId.

Definition purchaseImage (env : Env) (imageId : uint256) : M unit :=
  w ← get_;
  let image := images_at w imageId in
  require (bool_decide (creator image ≠ 0)) "Image missing" ;;
  require (bool_decide (msg_sender env ≠ creator image)) "Creator restricted" ;;
  require (negb (purchased_at w imageId (msg_sender env))) "Already purchased" ;;
  require (bool_decide (msg_value env = ACCESS_PRICE)) "Incorrect price" ;;
  modify_ (set_purchased imageId (msg_sender env)) ;;
  sent ← call_value env (creator image) (msg_value env);
  require sent "Payout failed" ;;
  FHE_allow (encryptedKey image) (msg_sender env) ;;
  emit (ImagePurchased imageId (msg_sender env) (msg_value env)) ;;
  emit (AccessGranted imageId (msg_sender env)).

Definition grantAccess (env : Env) (imageId : uint256) (account : address) : M unit :=
  require (bool_decide (account ≠ 0)) "Invalid account" ;;
  w ← get_;
  let image := images_at w imageId in
  require (bool_decide (creator image ≠ 0)) "Image missing" ;;
  require (bool_decide (creator image = msg_sender env)) "Not creator" ;;
  FHE_allow (encryptedKey image) account ;;
  emit (AccessGranted imageId account).

(** Views: they read the world and may revert, they never write. *)
Definition getImage (w : World) (imageId : uint256)
  : Result (address * string * uint256 * uint256 * euint256) :=
  let image := images_at w imageId in
  if bool_decide (creator image ≠ 0)
  then Ok (creator image, ipfsHash image, ACCESS_PRICE, createdAt image, encryptedKey image)
  else Err (Revert "Image missing").

Definition getTotalImages (w : World) : uint256 := _nextImageId w.

Definition hasPurchased (w : World) (imageId : uint256) (account : address) : Result bool :=
  let image := images_at w imageId in
  if bool_decide (creator image ≠ 0)
  then Ok (bool_decide (account = creator image) || purchased_at w imageId account)
  else Err (Revert "Image missing").

(** ** Transactions

    A call arrives with [msg.value] already moved from the sender to the
    contract; a sender who cannot afford it never reaches the code.  The
    functions other than [purchaseImage] are not payable.  A failed call
    leaves the world exactly as it was. *)
Inductive Call :=
| ListEncryptedImage (ipfsHash_ : string) (encryptedKey_ : Z) (inputProof : list Z)
| PurchaseImage (imageId : uint256)
| GrantAccess (imageId : uint256) (account : address).

Definition nonpayable (env : Env) : M unit :=
  if bool_decide (msg_value env = 0) then ret_ tt else fail_ RevertNoReason.

Definition dispatch (env : Env) (c : Call) : M (option uint256) :=
  match c with
  | ListEncryptedImage h k p =>
      nonpayable env ;; imageId ← listEncryptedImage env h k p; mret (Some imageId)
  | PurchaseImage imageId =>
      purchaseImage env imageId ;; mret None
  | GrantAccess imageId account =>
      nonpayable env ;; grantAccess env imageId account ;; mret None
  end.

(** [msg.value] enters the contract before its code runs. *)
Definition pay_in (env : Env) (w : World) : World :=
  transfer (msg_sender env) (self w) (msg_value env) w.

Definition transact (env : Env) (c : Call) (w : World)
  : Result (option uint256) * World :=
  if bool_decide (balance w (msg_sender env) < msg_value env)
  then (Err OutOfFunds, w)
  else match dispatch env c (pay_in env w) with
       | Ok (r, w') => (Ok r, w')
       | Err f => (Err f, w)
       end.

Definition exec (tx : Env * Call) (w : World) : World :=
  (transact tx.1 tx.2 w).2.

Fixpoint run (txs : list (Env * Call)) (w : World) : World :=
  match txs with
  | [] => w
  | tx :: rest => run rest (exec tx w)
  end.

(** The ids handed out by the successful listings of a run, oldest first. *)
Fixpoint listings (txs : list (Env * Call)) (w : World) : list uint256 :=
  match txs with
  | [] => []
  | tx :: rest =>
      match tx.2, (transact tx.1 tx.2 w).1 with
      | ListEncryptedImage _ _ _, Ok (Some imageId) => imageId :: listings rest (exec tx w)
      | _, _ => listings rest (exec tx w)
      end
  end.

(** What the chain guarantees of a caller: it is a real account (never the
    zero address, never the gallery itself) and [msg.value] is a uint256. *)
Definition wf_env (w : World) (env : Env) : Prop :=
  msg_sender env ≠ 0 ∧ msg_sender env ≠ self w ∧ 0 ≤ msg_value env ≤ MAX_UINT256.

(** The freshly deployed contract: zeroed storage, no event yet; balances and
    the FHE allow-list are whatever the chain holds. *)
Definition genesis (w : World) : Prop :=
  _nextImageId w = 0 ∧ _images w = ∅ ∧ _hasPurchased w = ∅ ∧ events w = []
  ∧ map_Forall (λ _ v, 0 ≤ v) (balances w).

Inductive reachable : World -> Prop :=
| reach_genesis w : genesis w → reachable w
| reach_step w tx : reachable w → wf_env w tx.1 → reachable (exec tx w).

(** ** The worlds successful calls leave behind

    The writes of [purchaseImage], in the order the body makes them. *)
Definition purchase_post (env : Env) (imageId : uint256) (w : World) : World :=
  let image := images_at w imageId in
  log_event (AccessGranted imageId (msg_sender env))
    (log_event (ImagePurchased imageId (msg_sender env) (msg_value env))
       (acl_add (encryptedKey image) (msg_sender env)
          (transfer (self w) (creator image) (msg_value env)
             (set_purchased imageId (msg_sender env) w)))).

(** The writes of [listEncryptedImage]. *)
Definition list_post (env : Env) (ipfsHash_ : string) (storedKey : euint256)
    (w : World) : World :=
  let imageId := _nextImageId w + 1 in
  log_event (ImageListed imageId (msg_sender env) ipfsHash_)
    (acl_add storedKey (msg_sender env)
       (acl_add storedKey (self w)
          (set_image imageId
             {| creator := msg_sender env; ipfsHash := ipfsHash_;
                encryptedKey := storedKey; createdAt := block_timestamp env |}
             (set_nextImageId imageId w)))).

(** The writes of [grantAccess]. *)
Definition grant_post (imageId : uint256) (account : address) (w : World) : World :=
  log_event (AccessGranted imageId account)
    (acl_add (encryptedKey (images_at w imageId)) account w).

(** A transaction either leaves the world as it was, or is one of the three
    successful calls, whose effect is the corresponding post-state. *)
Inductive step_kind (env : Env) (w : World) : Call -> Result (option uint256) -> World -> Prop :=
| step_fail c f :
    step_kind env w c (Err f) w
| step_list h k p storedKey :
    msg_value env = 0 →
    h ≠ EmptyString →
    fromExternal env k p = Some storedKey →
    _nextImageId w < MAX_UINT256 →
    step_kind env w (ListEncryptedImage h k p) (Ok (Some (_nextImageId w + 1)))
              (list_post env h storedKey (pay_in env w))
| step_purchase imageId :
    msg_value env ≤ balance w (msg_sender env) →
    creator (images_at w imageId) ≠ 0 →
    msg_sender env ≠ creator (images_at w imageId) →
    purchased_at w imageId (msg_sender env) = false →
    msg_value env = ACCESS_PRICE →
    accepts env (creator (images_at w imageId)) (msg_value env) = true →
    msg_value env ≤ balance (pay_in env w) (self w) →
    step_kind env w (PurchaseImage imageId) (Ok None)
              (purchase_post env imageId (pay_in env w))
| step_grant imageId account :
    msg_value env = 0 →
    account ≠ 0 →
    creator (images_at w imageId) ≠ 0 →
    creator (images_at w imageId) = msg_sender env →
    step_kind env w (GrantAccess imageId account) (Ok None)
              (grant_post imageId account (pay_in env w)).

(** ** Invariants *)

(** Items live at ids between 1 and the counter, whoever calls. *)
Definition ids_bounded (w : World) : Prop :=
  0 ≤ _nextImageId w ≤ MAX_UINT256 ∧
  ∀ imageId, creator (images_at w imageId) ≠ 0 → 1 ≤ imageId ≤ _nextImageId w.

(** On worlds reached by real callers every id up to the counter is an item,
    no item belongs to the gallery itself, and no balance is negative. *)
Definition Inv (w : World) : Prop :=
  ids_bounded w
  ∧ (∀ imageId, 1 ≤ imageId ≤ _nextImageId w → creator (images_at w imageId) ≠ 0)
  ∧ (∀ imageId, creator (images_at w imageId) ≠ 0 → creator (images_at w imageId) ≠ self w)
  ∧ (∀ a, 0 ≤ balance w a).

(** Every purchase flag stands on an existing item, comes with the buyer's
    entry in the allow-list of the item's key, and was logged as a purchase
    at [ACCESS_PRICE]. *)
Definition flags_paid (w : World) : Prop :=
  ∀ imageId buyer, purchased_at w imageId buyer = true →
    creator (images_at w imageId) ≠ 0
    ∧ allowed w (encryptedKey (images_at w imageId)) buyer = true
    ∧ ImagePurchased imageId buyer ACCESS_PRICE ∈ events w.

(** ** A small concrete chain, for examples *)

Definition chain_env (sender : address) (value : uint256) : Env :=
  {| msg_sender := sender; msg_value := value; block_timestamp := 1700000000;
     fromExternal := fun h _ => Some h;
     accepts := fun _ _ => true |}.

(** The same chain with recipients that refuse plain transfers. *)
Definition refusing_env (sender : address) (value : uint256) : Env :=
  {| msg_sender := sender; msg_value := value; block_timestamp := 1700000000;
     fromExternal := fun h _ => Some h;
     accepts := fun _ _ => false |}.

Definition world0 : World :=
  {| self := 1000; _nextImageId := 0; _images := ∅; _hasPurchased := ∅;
     acl := ∅; balances := {[ 1 := 5 * 10 ^ 18; 2 := 5 * 10 ^ 18; 3 := 5 * 10 ^ 18 ]};
     events := [] |}.

Definition tx_list1 : Env * Call :=
  (chain_env 1 0, ListEncryptedImage "ipfs://sample-hash" 77 []).

Definition tx_buy1 : Env * Call :=
  (chain_env 2 ACCESS_PRICE, PurchaseImage 1).

Definition tx_grant1 : Env * Call :=
  (chain_env 1 0, GrantAccess 1 3).

Definition world1 : World := exec tx_list1 world0.
Definition world2 : World := exec tx_buy1 world1.

End Gallery.

Module Crypto.

(** ** Bytes

    A [Uint8Array] is a list of integers, each below 256. *)
Definition bytes := list Z.

Definition at_ (s : bytes) (i : nat) : Z := default 0 (s !! i).

Definition xor_bytes (a b : bytes) : bytes := zip_with Z.lxor a b.

(** ** The platform cipher: AES-256 in Galois/Counter mode

    [crypto.subtle.encrypt] and [crypto.subtle.decrypt] with
    [{ name: 'AES-GCM', iv }] are the browser's, not the repository's.  They
    are modelled after FIPS 197 and NIST SP 800-38D for a 32-byte key, a
    12-byte nonce, no additional data and the default 16-byte tag, which is
    how [crypto.ts] calls them. *)

(** Multiplication by x in GF(2^8) modulo x^8 + x^4 + x^3 + x + 1. *)
Definition xtime (b : Z) : Z :=
  Z.land (Z.lxor (Z.shiftl b 1) (if Z.testbit b 7 then 27 else 0)) 255.

Fixpoint gf_mul_aux (n : nat) (a b acc : Z) : Z :=
  match n with
  | O => acc
  | S n' => gf_mul_aux n' (xtime a) (Z.shiftr b 1)
              (if Z.testbit b 0 then Z.lxor acc a else acc)
  end.

Definition gf_mul (a b : Z) : Z := gf_mul_aux 8 a b 0.

(** The inverse in GF(2^8) is the 254th power (and 0 for 0). *)
Definition gf_inv (a : Z) : Z :=
  let a2 := gf_mul a a in
  let a4 := gf_mul a2 a2 in
  let a8 := gf_mul a4 a4 in
  let a16 := gf_mul a8 a8 in
  let a32 := gf_mul a16 a16 in
  let a64 := gf_mul a32 a32 in
  let a128 := gf_mul a64 a64 in
  gf_mul a128 (gf_mul a64 (gf_mul a32 (gf_mul a16 (gf_mul a8 (gf_mul a4 a2))))).

Definition rotl8 (b n : Z) : Z :=
  Z.land (Z.lor (Z.shiftl b n) (Z.shiftr b (8 - n))) 255.

Definition sbox (b : Z) : Z :=
  let s := gf_inv b in
  Z.lxor s (Z.lxor (rotl8 s 1) (Z.lxor (rotl8 s 2)
    (Z.lxor (rotl8 s 3) (Z.lxor (rotl8 s 4) 99)))).

Definition rot_word (w : bytes) : bytes :=
  match w with
  | a :: rest => rest ++ [a]
  | [] => []
  end.

Definition rcon (j : nat) : bytes := [Nat.iter (j - 1) xtime 1; 0; 0; 0].

Definition word_at (ws : list bytes) (i : nat) : bytes := default [] (ws !! i).

(** Key expansion for [Nk = 8]: words 8 to 59 from the 8 words of the key. *)
Fixpoint expand_key (n : nat) (i : nat) (ws : list bytes) : list bytes :=
  match n with
  | O => ws
  | S n' =>
      let temp := word_at ws (i - 1) in
      let temp' :=
        if Nat.eqb (i mod 8) 0 then xor_bytes (map sbox (rot_word temp)) (rcon (i / 8))
        else if Nat.eqb (i mod 8) 4 then map sbox temp
        else temp in
      expand_key n' (S i) (ws ++ [xor_bytes (word_at ws (i - 8)) temp'])
  end.

Fixpoint words_of (n : nat) (l : bytes) : list bytes :=
  match n with
  | O => []
  | S n' => take 4 l :: words_of n' (drop 4 l)
  end.

Definition key_schedule (key : bytes) : list bytes :=
  expand_key 52 8 (words_of 8 key).

Definition round_key (ws : list bytes) (r : nat) : bytes :=
  word_at ws (4 * r) ++ word_at ws (4 * r + 1)
    ++ word_at ws (4 * r + 2) ++ word_at ws (4 * r + 3).

(** The state is 16 bytes, column by column. *)
Definition shift_rows (s : bytes) : bytes :=
  map (fun i => at_ s (i mod 4 + 4 * ((i / 4 + i mod 4) mod 4)))%nat (seq 0 16).

Definition mix_column (s : bytes) (c : nat) : bytes :=
  let a0 := at_ s (4 * c) in
  let a1 := at_ s (4 * c + 1) in
  let a2 := at_ s (4 * c + 2) in
  let a3 := at_ s (4 * c + 3) in
  [ Z.lxor (gf_mul 2 a0) (Z.lxor (gf_mul 3 a1) (Z.lxor a2 a3));
    Z.lxor a0 (Z.lxor (gf_mul 2 a1) (Z.lxor (gf_mul 3 a2) a3));
    Z.lxor a0 (Z.lxor a1 (Z.lxor (gf_mul 2 a2) (gf_mul 3 a3)));
    Z.lxor (gf_mul 3 a0) (Z.lxor a1 (Z.lxor a2 (gf_mul 2 a3))) ].

Definition mix_columns (s : bytes) : bytes :=
  mix_column s 0 ++ mix_column s 1 ++ mix_column s 2 ++ mix_column s 3.

(** Rounds [r] to 13 with MixColumns, then round 14 without. *)
Fixpoint aes_rounds (ws : list bytes) (n : nat) (r : nat) (s : bytes) : bytes :=
  match n with
  | O => xor_bytes (shift_rows (map sbox s)) (round_key ws r)
  | S n' => aes_rounds ws n' (S r)
              (xor_bytes (mix_columns (shift_rows (map sbox s))) (round_key ws r))
  end.

Definition aes256_encrypt_block (key block : bytes) : bytes :=
  let ws := key_schedule key in
  aes_rounds ws 13 1 (xor_bytes block (round_key ws 0)).

(** A 16-byte block as a 128-bit integer, first byte most significant. *)
Definition block_of_bytes (bs : bytes) : Z :=
  fold_left (fun acc b => acc * 256 + b) bs 0.

Definition byte_of_block (z : Z) (j : nat) : Z :=
  Z.land (Z.shiftr z (8 * (15 - Z.of_nat j))) 255.

Definition bytes_of_block (z : Z) : bytes := map (byte_of_block z) (seq 0 16).

(** Multiplication in GF(2^128), bit 0 being the leftmost one. *)
Definition gcm_R : Z := Z.shiftl 225 120.

Fixpoint gf128_mul_aux (n : nat) (x v acc : Z) : Z :=
  match n with
  | O => acc
  | S n' =>
      gf128_mul_aux n' x
        (if Z.testbit v 0 then Z.lxor (Z.shiftr v 1) gcm_R else Z.shiftr v 1)
        (if Z.testbit x (Z.of_nat n') then Z.lxor acc v else acc)
  end.

Definition gf128_mul (x y : Z) : Z := gf128_mul_aux 128 x y 0.

Definition ghash (H : Z) (blocks : list Z) : Z :=
  fold_left (fun y x => gf128_mul (Z.lxor y x) H) blocks 0.

(** Block [i] of the data, the last one padded with zeros. *)
Definition padded_block (data : bytes) (i : nat) : Z :=
  block_of_bytes (map (fun j => at_ data (16 * i + j))%nat (seq 0 16)).

Definition data_blocks (data : bytes) : list Z :=
  map (padded_block data) (seq 0 ((length data + 15) / 16)).

Definition be32 (n : Z) : bytes :=
  [ Z.land (Z.shiftr n 24) 255; Z.land (Z.shiftr n 16) 255;
    Z.land (Z.shiftr n 8) 255; Z.land n 255 ].

(** For a 96-bit nonce the counter blocks are [iv || counter]; number 1 masks
    the tag, the data starts at number 2. *)
Definition counter_block (iv : bytes) (n : Z) : bytes := iv ++ be32 (n mod 2 ^ 32).

Definition gcm_tag (key iv c : bytes) : bytes :=
  let H := block_of_bytes (aes256_encrypt_block key (replicate 16 0)) in
  let S := ghash H (data_blocks c ++ [8 * Z.of_nat (length c)]) in
  bytes_of_block (Z.lxor (block_of_bytes (aes256_encrypt_block key (counter_block iv 1))) S).

Definition keystream_byte (key iv : bytes) (j : nat) : Z :=
  at_ (aes256_encrypt_block key (counter_block iv (2 + Z.of_nat (j / 16)))) (j mod 16).

Definition gctr (key iv data : bytes) : bytes :=
  imap (fun j b => Z.lxor b (keystream_byte key iv j)) data.

(** ** Errors thrown by [crypto.ts] and by the platform *)
Inductive CryptoError :=
| InvalidHexString     (* Error('Invalid hex string') *)
| BadKeyLength         (* Error('AES key must be 32 bytes (256 bits)') *)
| PayloadTooShort      (* Error('Encrypted payload too short') *)
| OperationError.      (* thrown by crypto.subtle.decrypt *)

Inductive Outcome (A : Type) :=
| Done (a : A)
| Thrown (e : CryptoError).
Arguments Done {A} a.
Arguments Thrown {A} e.

(** [crypto.subtle.encrypt]: ciphertext followed by the 16-byte tag. *)
Definition subtle_encrypt (key iv plain : bytes) : bytes :=
  let c := gctr key iv plain in
  c ++ gcm_tag key iv c.

(** [crypto.subtle.decrypt]: input shorter than the tag, or a tag that does
    not verify, is an [OperationError]. *)
Definition subtle_decrypt (key iv data : bytes) : Outcome bytes :=
  if (length data <? 16)%nat then Thrown OperationError
  else
    let c := take (length data - 16) data in
    let t := drop (length data - 16) data in
    if bool_decide (t = gcm_tag key iv c) then Done (gctr key iv c)
    else Thrown OperationError.

(** ** JavaScript strings and numbers, as far as [hexToBytes] uses them

    A string is its sequence of code units; the model covers the code units
    below 256, one [ascii] each. *)
Definition code (c : ascii) : Z := Z.of_N (N_of_ascii c).

Definition hex_value (c : ascii) : option Z :=
  let n := code c in
  if (48 <=? n) && (n <=? 57) then Some (n - 48)
  else if (97 <=? n) && (n <=? 102) then Some (n - 87)
  else if (65 <=? n) && (n <=? 70) then Some (n - 55)
  else None.

(** The white space and line terminators that [parseInt] skips. *)
Definition is_white_space (c : ascii) : bool :=
  bool_decide (code c ∈ [9; 10; 11; 12; 13; 32; 160]).

Fixpoint trim_start (s : string) : string :=
  match s with
  | String c rest => if is_white_space c then trim_start rest else s
  | EmptyString => s
  end.

(** The value of the longest prefix of hexadecimal digits; [None] when there
    is no digit at all. *)
Fixpoint parse_digits (s : string) (acc : option Z) : option Z :=
  match s with
  | String c rest =>
      match hex_value c with
      | Some d => parse_digits rest (Some (16 * default 0 acc + d))
      | None => acc
      end
  | EmptyString => acc
  end.

(** [parseInt(s, 16)]; [None] stands for [NaN]. *)
Definition parseInt16 (s : string) : option Z :=
  let s1 := trim_start s in
  let signed :=
    match s1 with
    | String "-" rest => (-1, rest)
    | String "+" rest => (1, rest)
    | _ => (1, s1)
    end in
  let s3 :=
    match signed.2 with
    | String "0" (String "x" rest) => rest
    | String "0" (String "X" rest) => rest
    | s2 => s2
    end in
  option_map (Z.mul signed.1) (parse_digits s3 None).

(** Storing a number in a [Uint8Array]: [NaN] becomes 0, anything else is
    reduced modulo 256. *)
Definition to_uint8 (v : option Z) : Z :=
  match v with
  | None => 0
  | Some n => n mod 256
  end.

(** ** [app/src/utils/crypto.ts] *)

Definition AES_IV_LENGTH : nat := 12.

(** The loop of [hexToBytes]: one byte per two-character slice. *)
Fixpoint hex_pairs (s : string) : bytes :=
  match s with
  | String a (String b rest) =>
      to_uint8 (parseInt16 (String a (String b EmptyString))) :: hex_pairs rest
  | _ => []
  end.

Definition hexToBytes (hex : string) : Outcome bytes :=
  let clean :=
    match hex with
    | String "0" (String "x" rest) => rest
    | _ => hex
    end in
  if negb (Nat.eqb (String.length clean mod 2) 0) then Thrown InvalidHexString
  else Done (hex_pairs clean).

Definition importAesKey (keyHex : string) : Outcome bytes :=
  match hexToBytes keyHex with
  | Thrown e => Thrown e
  | Done keyBytes =>
      if negb (Nat.eqb (length keyBytes) 32) then Thrown BadKeyLength
      else Done keyBytes
  end.

(** [iv] is what [crypto.getRandomValues(new Uint8Array(AES_IV_LENGTH))]
    returned. *)
Definition encryptContent (iv : bytes) (plain : bytes) (keyHex : string)
  : Outcome bytes :=
  match importAesKey keyHex with
  | Thrown e => Thrown e
  | Done key => Done (iv ++ subtle_encrypt key iv plain)
  end.

Definition decryptContent (payload : bytes) (keyHex : string) : Outcome bytes :=
  if (length payload <=? AES_IV_LENGTH)%nat then Thrown PayloadTooShort
  else
    let iv := take AES_IV_LENGTH payload in
    let ciphertext := drop AES_IV_LENGTH payload in
    match importAesKey keyHex with
    | Thrown e => Thrown e
    | Done key => subtle_decrypt key iv ciphertext
    end.

(** ** Key handling in [app/src/components/GalleryApp.tsx] *)

Definition hex_char (d : Z) : ascii :=
  if d <? 10 then ascii_of_N (Z.to_N (48 + d)) else ascii_of_N (Z.to_N (87 + d)).

(** The hexadecimal digits of a non-negative number, most significant
    first, no leading zero ("0" for zero); [fuel] bounds their number. *)
Fixpoint to_hex_aux (fuel : nat) (n : Z) (acc : string) : string :=
  match fuel with
  | O => acc
  | S fuel' =>
      let acc' := String (hex_char (n mod 16)) acc in
      if n / 16 =? 0 then acc' else to_hex_aux fuel' (n / 16) acc'
  end.

Definition hex_digits (n : Z) : string :=
  to_hex_aux (S (Z.to_nat (Z.log2 n))) n EmptyString.

(** [n.toString(16)] for a BigInt. *)
Definition toString16 (n : Z) : string :=
  if n <? 0 then String "-" (hex_digits (- n)) else hex_digits n.

(** [s.padStart(width, '0')] *)
Definition padStart0 (width : nat) (s : string) : string :=
  Nat.iter (width - String.length s) (String "0") s.

(** [handleDecrypt]: the hex key handed to [decryptContent] for the unsealed
    value [keyBigInt],
    [`0x${keyBigInt.toString(16).padStart(64, '0')}`]. *)
Definition keyHex_of (keyBigInt : Z) : string :=
  String "0" (String "x" (padStart0 64 (toString16 keyBigInt))).

(** [BigInt(s)] for a hexadecimal literal [0x...]; [None] for anything else
    (other literals do not occur: [wallet.privateKey] is [0x] and 64 digits). *)
Definition BigInt_of_hex (s : string) : option Z :=
  match s with
  | String "0" (String "x" rest) =>
      if forallb (fun c => bool_decide (is_Some (hex_value c)))
                 (list_ascii_of_string rest)
      then parse_digits rest None
      else None
  | _ => None
  end.

(** [handleEncrypt]: from the private key of the random wallet, the key the
    image is encrypted under and the integer that is sealed on chain. *)
Definition aes_key_of_private_key (privateKey : string) : Outcome bytes :=
  importAesKey privateKey.

Definition sealed_secret_of_private_key (privateKey : string) : option Z :=
  BigInt_of_hex privateKey.

(** ** The rest of [app/src/utils/crypto.ts] *)

(** [b.toString(16).padStart(2, '0')] for each byte, joined behind [0x]. *)
Definition bytesToHex (data : bytes) : string :=
  String "0" (String "x"
    (foldr (fun b rest => String.append (padStart0 2 (toString16 b)) rest)
           EmptyString data)).

(** The magic numbers, tested in the order of the source. *)
Definition detectMimeType (data : bytes) : string :=
  if (4 <=? length data)%nat && (at_ data 0 =? 137) && (at_ data 1 =? 80)
     && (at_ data 2 =? 78) && (at_ data 3 =? 71)
  then "image/png"
  else if (3 <=? length data)%nat && (at_ data 0 =? 255) && (at_ data 1 =? 216)
          && (at_ data 2 =? 255)
  then "image/jpeg"
  else if (4 <=? length data)%nat && (at_ data 0 =? 71) && (at_ data 1 =? 73)
          && (at_ data 2 =? 70) && (at_ data 3 =? 56)
  then "image/gif"
  else if (12 <=? length data)%nat && (at_ data 0 =? 82) && (at_ data 1 =? 73)
          && (at_ data 2 =? 70) && (at_ data 8 =? 87) && (at_ data 9 =? 69)
          && (at_ data 10 =? 66) && (at_ data 11 =? 80)
  then "image/webp"
  else "application/octet-stream".

(** A [Uint8Array] holds bytes. *)
Definition is_bytes (data : bytes) : Prop := Forall (fun b => 0 ≤ b < 256) data.

(** [hex.startsWith('0x') ? hex.slice(2) : hex], the first line of
    [hexToBytes]. *)
Definition strip_0x (hex : string) : string :=
  match hex with
  | String "0" (String "x" rest) => rest
  | _ => hex
  end.

(** ** Encodings of a number

    Fixed-width hexadecimal digits and big-endian bytes, to state what
    [keyHex_of] and [hexToBytes] compute. *)
Fixpoint hex_fixed (k : nat) (n : Z) (acc : string) : string :=
  match k with
  | O => acc
  | S k' => hex_fixed k' (n / 16) (String (hex_char (n mod 16)) acc)
  end.

Fixpoint be_bytes_aux (m : nat) (n : Z) (acc : bytes) : bytes :=
  match m with
  | O => acc
  | S m' => be_bytes_aux m' (n / 256) (n mod 256 :: acc)
  end.

Definition be_bytes (m : nat) (n : Z) : bytes := be_bytes_aux m n [].

(** ** Sample inputs *)

Definition sample_iv : bytes := [1; 2; 3; 4; 5; 6; 7; 8; 9; 10; 11; 12].
Definition sample_plain : bytes := [137; 80; 78].
Definition sample_keyHex : string := keyHex_of 1.
Definition sample_key : bytes := replicate 31 0 ++ [1].
Definition sample_short : bytes := sample_iv ++ [0].

End Crypto.

(** * Part III: the pseudo-IPFS store, [app/src/utils/ipfs.ts] *)

Module PseudoIpfs.

(** [const pseudoStorage = new Map<string, Uint8Array>()] *)
Definition Storage := gmap string (list Z).

Definition candidate (timestamp random : string) : string :=
  String.append "pseudo-" (String.append timestamp random).

(** [createPseudoCid].  [timestamp] is [Date.now().toString(16)], [draws] are
    the successive values of [Math.random().toString(16).slice(2)]: the first
    one makes the first candidate, the loop takes the next one as long as
    the candidate is taken.  [None] when the draws run out before a free
    name is found (the loop would go on drawing). *)
Fixpoint createPseudoCid (pseudoStorage : gmap string (list Z))
    (timestamp : string) (draws : list string) : option string :=
  match draws with
  | [] => None
  | random :: rest =>
      if bool_decide (is_Some (pseudoStorage !! candidate timestamp random))
      then createPseudoCid pseudoStorage timestamp rest
      else Some (candidate timestamp random)
  end.

(** [uploadToPseudoIpfs]: the cid and the store after [set]. *)
Definition uploadToPseudoIpfs (pseudoStorage : gmap string (list Z))
    (timestamp : string) (draws : list string) (payload : list Z)
  : option (string * gmap string (list Z)) :=
  match createPseudoCid pseudoStorage timestamp draws with
  | None => None
  | Some cid => Some (cid, <[cid := payload]> pseudoStorage)
  end.

(** [fetchFromIpfs]: [None] is the thrown
    'Content is not available in pseudo IPFS storage'.  A stored array is an
    object, hence truthy even when empty. *)
Definition fetchFromIpfs (pseudoStorage : gmap string (list Z)) (cid : string)
  : option (list Z) :=
  pseudoStorage !! cid.

(** Uploads in sequence, from a given store: the cids handed out and the
    final store; [None] as soon as one upload finds no free name. *)
Fixpoint upload_all (pseudoStorage : gmap string (list Z))
    (uploads : list (string * list string * list Z))
  : option (list string * gmap string (list Z)) :=
  match uploads with
  | [] => Some ([], pseudoStorage)
  | (timestamp, draws, payload) :: rest =>
      match uploadToPseudoIpfs pseudoStorage timestamp draws payload with
      | None => None
      | Some (cid, store') =>
          match upload_all store' rest with
          | None => None
          | Some (cids, final) => Some (cid :: cids, final)
          end
      end
  end.

(** ** Sample uploads: the second one draws a name that is taken *)

Definition sample_uploads : list (string * list string * list Z) :=
  [("18c", ["a1"; "b2"], [1; 2]); ("18c", ["a1"; "b2"], [3])].

Definition sample_store : gmap string (list Z) :=
  <["pseudo-18cb2" := [3]]> (<["pseudo-18ca1" := [1; 2]]> ∅).

End PseudoIpfs.

(** * Part IV: the gallery listing of [app/src/components/GalleryApp.tsx] *)

Module Frontend.

(** [type GalleryItem], without the two optional fields that [fetchGallery]
    leaves unset. *)
Record GalleryItem := mkItem {
  id : Z;
  creator : Z;
  ipfsHash : string;
  price : Z;
  createdAt : Z;
  encryptedKey : Z;
  hasAccess : bool;
  purchasing : bool;
  decrypting : bool
}.

(** [Array.prototype.sort] is stable: an element moves in front of the
    sorted rest only as far as the comparator is not positive. *)
Fixpoint insert_sorted (cmp : GalleryItem -> GalleryItem -> Z)
    (x : GalleryItem) (l : list GalleryItem) : list GalleryItem :=
  match l with
  | [] => [x]
  | y :: rest => if cmp x y <=? 0 then x :: l else y :: insert_sorted cmp x rest
  end.

Definition sort (cmp : GalleryItem -> GalleryItem -> Z) (l : list GalleryItem)
  : list GalleryItem :=
  foldr (insert_sorted cmp) [] l.

(** The body of [ids.map(async (id) => ...)]: [None] when [getImage] reverts
    (the promise rejects); a failing [hasPurchased] read is caught and
    leaves [hasAccess] false.  [account] is the connected address, if any. *)
Definition fetchItem (w : Gallery.World) (account : option Z) (imageId : Z)
  : option GalleryItem :=
  match Gallery.getImage w imageId with
  | Gallery.Err _ => None
  | Gallery.Ok (creator_, hash, priceValue, createdAt_, encryptedKey_) =>
      let hasAccess_ :=
        match account with
        | None => false
        | Some address =>
            let read :=
              match Gallery.hasPurchased w imageId address with
              | Gallery.Ok b => b
              | Gallery.Err _ => false
              end in
            if bool_decide (creator_ = address) then true else read
        end in
      Some {| id := imageId; creator := creator_; ipfsHash := hash;
              price := priceValue; createdAt := createdAt_;
              encryptedKey := encryptedKey_; hasAccess := hasAccess_;
              purchasing := false; decrypting := false |}
  end.

(** [Promise.all]: all the items, or nothing when one read failed. *)
Fixpoint fetchAll (w : Gallery.World) (account : option Z) (ids : list Z)
  : option (list GalleryItem) :=
  match ids with
  | [] => Some []
  | imageId :: rest =>
      match fetchItem w account imageId, fetchAll w account rest with
      | Some item, Some items => Some (item :: items)
      | _, _ => None
      end
  end.

(** [fetchGallery], on one snapshot of the chain: the items handed to
    [setItems], or [None] when the [catch] branch is taken (an array length
    of 2^32 or more is a RangeError). *)
Definition fetchGallery (w : Gallery.World) (account : option Z)
  : option (list GalleryItem) :=
  let totalImages := Gallery.getTotalImages w in
  if 2 ^ 32 <=? totalImages then None
  else
    let ids := map (fun index => Z.of_nat index + 1) (seq 0 (Z.to_nat totalImages)) in
    match fetchAll w account ids with
    | None => None
    | Some fetched => Some (sort (fun a b => id b - id a) fetched)
    end.

(** What an item of the list says, against the contract's own answers on
    the same chain state: the fields are those of [getImage], the two
    activity flags are off, and [hasAccess] is on exactly when an account is
    connected for which [hasPurchased] answers true. *)
Definition shows (w : Gallery.World) (account : option Z) (item : GalleryItem) : Prop :=
  Gallery.getImage w (id item)
    = Gallery.Ok (creator item, ipfsHash item, price item, createdAt item,
                  encryptedKey item)
  ∧ price item = Gallery.ACCESS_PRICE
  ∧ purchasing item = false
  ∧ decrypting item = false
  ∧ (hasAccess item = true ↔
     ∃ a, account = Some a ∧ Gallery.hasPurchased w (id item) a = Gallery.Ok true).



(** [handlePublish]: it returns without a transaction when no cid was
    stored ([!ipfsHash]); otherwise it makes the signer's call
    [contract.listEncryptedImage(ipfsHash, handles[0], inputProof)], sent
    without value.  Its other guards concern the session (the prepared
    encryption, the relayer instance, the signer) and are taken as passed;
    [handle] and [inputProof] are what the relayer's [encrypt()] returned. *)
Definition publish_env (chain : Gallery.Env) : Gallery.Env :=
  {| Gallery.msg_sender := Gallery.msg_sender chain;
     Gallery.msg_value := 0;
     Gallery.block_timestamp := Gallery.block_timestamp chain;
     Gallery.fromExternal := Gallery.fromExternal chain;
     Gallery.accepts := Gallery.accepts chain |}.

Definition handlePublish (chain : Gallery.Env) (ipfsHash_ : string) (handle : Z)
    (inputProof : list Z) (w : Gallery.World)
  : option (Gallery.Result (option Gallery.uint256) * Gallery.World) :=
  if bool_decide (ipfsHash_ = EmptyString) then None
  else Some (Gallery.transact (publish_env chain)
               (Gallery.ListEncryptedImage ipfsHash_ handle inputProof) w).


End Frontend.

(** * Part I, proofs: the gallery contract *)

Module GalleryProofs.
Import Gallery.

(** ** What each function does, read off its body *)

Ltac unfold_M :=
  unfold mbind, M_bind, mret, M_ret, require, emit, FHE_allow, FHE_allowThis,
    FHE_fromExternal, pre_increment_nextImageId, call_value, nonpayable,
    bind_, ret_, fail_, modify_, get_ in *.

Lemma string_length_pos (s : string) : (0 < String.length s)%nat ↔ s ≠ EmptyString.
Proof. destruct s; simpl; split; intros; (lia || congruence). Qed.

Lemma purchaseImage_unfold env imageId w :
  purchaseImage env imageId w =
    let image := images_at w imageId in
    if bool_decide (creator image = 0) then Err (Revert "Image missing")
    else if bool_decide (msg_sender env = creator image) then Err (Revert "Creator restricted")
    else if purchased_at w imageId (msg_sender env) then Err (Revert "Already purchased")
    else if bool_decide (msg_value env ≠ ACCESS_PRICE) then Err (Revert "Incorrect price")
    else if accepts env (creator image) (msg_value env) && (msg_value env <=? balance w (self w))
         then Ok (tt, purchase_post env imageId w)
         else Err (Revert "Payout failed").
Proof.
  unfold purchaseImage, purchase_post. unfold_M. cbv zeta.
  change (balance (set_purchased imageId (msg_sender env) w)) with (balance w).
  change (self (set_purchased imageId (msg_sender env) w)) with (self w).
  repeat case_bool_decide; try congruence;
    destruct (purchased_at w imageId (msg_sender env)); simpl; try reflexivity.
  destruct (accepts env _ _ && _); reflexivity.
Qed.

Lemma listEncryptedImage_unfold env h k p w :
  listEncryptedImage env h k p w =
    if bool_decide (h = EmptyString) then Err (Revert "Invalid hash")
    else match fromExternal env k p with
         | None => Err InputRejected
         | Some storedKey =>
             if _nextImageId w <? MAX_UINT256
             then Ok (_nextImageId w + 1, list_post env h storedKey w)
             else Err (Panic 17)
         end.
Proof.
  unfold listEncryptedImage, list_post. unfold_M.
  pose proof (string_length_pos h) as Hlen.
  repeat case_bool_decide; try tauto; simpl; try reflexivity.
  destruct (fromExternal env k p); simpl; try reflexivity.
  destruct (_nextImageId w <? MAX_UINT256); reflexivity.
Qed.

Lemma grantAccess_unfold env imageId account w :
  grantAccess env imageId account w =
    let image := images_at w imageId in
    if bool_decide (account = 0) then Err (Revert "Invalid account")
    else if bool_decide (creator image = 0) then Err (Revert "Image missing")
    else if bool_decide (creator image ≠ msg_sender env) then Err (Revert "Not creator")
    else Ok (tt, grant_post imageId account w).
Proof.
  unfold grantAccess, grant_post. unfold_M. cbv zeta.
  repeat case_bool_decide; try congruence; reflexivity.
Qed.

Ltac step_eq H :=
  unfold fail_, ret_, mret, M_ret in H; simpl in H; simplify_eq.
Ltac step_fails :=
  let H := fresh in intros H; step_eq H; constructor.

Lemma transact_step_kind env c w r w' :
  transact env c w = (r, w') → step_kind env w c r w'.
Proof.
  unfold transact. case_bool_decide as Hfunds; [step_fails |].
  destruct c as [h k p | imageId | imageId account]; unfold dispatch.
  - unfold mbind, M_bind, bind_, nonpayable.
    case_bool_decide as Hv; [| step_fails].
    unfold ret_ at 1. rewrite listEncryptedImage_unfold.
    case_bool_decide as Hh; [step_fails |].
    destruct (fromExternal env k p) as [sk |] eqn:Hsk; [| step_fails].
    destruct (_nextImageId (pay_in env w) <? MAX_UINT256) eqn:Hn;
      [| step_fails].
    simpl. apply Z.ltb_lt in Hn. intros Ht; step_eq Ht. by apply step_list.
  - unfold mbind, M_bind, bind_. rewrite purchaseImage_unfold. cbv zeta.
    change (images_at (pay_in env w) imageId) with (images_at w imageId).
    change (purchased_at (pay_in env w)) with (purchased_at w).
    change (self (pay_in env w)) with (self w).
    case_bool_decide as H1; [step_fails |].
    case_bool_decide as H2; [step_fails |].
    destruct (purchased_at w imageId (msg_sender env)) eqn:H3;
      [step_fails |].
    case_bool_decide as H4; [step_fails |].
    destruct (accepts env _ _) eqn:H5; simpl; [| step_fails].
    destruct (msg_value env <=? _) eqn:H6; simpl; [| step_fails].
    apply Z.leb_le in H6. intros Ht; step_eq Ht.
    apply step_purchase; auto; lia.
  - unfold mbind, M_bind, bind_, nonpayable.
    case_bool_decide as Hv; [| step_fails].
    unfold ret_ at 1. rewrite grantAccess_unfold. cbv zeta.
    change (images_at (pay_in env w) imageId) with (images_at w imageId).
    case_bool_decide as H1; [step_fails |].
    case_bool_decide as H2; [step_fails |].
    case_bool_decide as H3; [step_fails |].
    simpl. intros Ht; step_eq Ht. apply step_grant; auto.
Qed.

Lemma exec_step_kind tx w :
  step_kind tx.1 w tx.2 (transact tx.1 tx.2 w).1 (exec tx w).
Proof. apply transact_step_kind. unfold exec. by destruct (transact _ _ _). Qed.

(** ** Reading the post-states *)

Lemma images_at_list_post env h sk w imageId :
  images_at (list_post env h sk w) imageId =
    if decide (imageId = _nextImageId w + 1)
    then {| creator := msg_sender env; ipfsHash := h;
            encryptedKey := sk; createdAt := block_timestamp env |}
    else images_at w imageId.
Proof.
  unfold images_at, list_post; simpl. case_decide as Heq.
  - subst. by rewrite lookup_insert_eq.
  - by rewrite lookup_insert_ne.
Qed.

Lemma purchased_at_purchase_post env i w imageId account :
  purchased_at (purchase_post env i w) imageId account =
    if decide (imageId = i ∧ account = msg_sender env) then true
    else purchased_at w imageId account.
Proof.
  unfold purchased_at, purchase_post; simpl. case_decide as Heq.
  - destruct Heq; subst. by rewrite lookup_insert_eq.
  - rewrite lookup_insert_ne; [done |]. naive_solver.
Qed.

Lemma balance_set_balance a v w b :
  balance (set_balance a v w) b = if decide (b = a) then v else balance w b.
Proof.
  unfold balance, set_balance; simpl. case_decide.
  - subst. by rewrite lookup_insert_eq.
  - by rewrite lookup_insert_ne.
Qed.

Lemma balance_transfer from to v w b :
  balance (transfer from to v w) b =
    (if decide (b = to) then v else 0) + ((if decide (b = from) then - v else 0) + balance w b).
Proof.
  unfold transfer. cbv zeta. rewrite !balance_set_balance.
  repeat case_decide; subst; try congruence; lia.
Qed.

(** ** What every step preserves *)

Lemma genesis_images_at w imageId : genesis w → images_at w imageId = zeroImage.
Proof. intros (_ & Himg & _). unfold images_at. by rewrite Himg, lookup_empty. Qed.

Lemma genesis_ids_bounded w : genesis w → ids_bounded w.
Proof.
  intros Hg. split.
  - destruct Hg as (-> & _). unfold MAX_UINT256. lia.
  - intros imageId. rewrite (genesis_images_at _ _ Hg). simpl. congruence.
Qed.

Ltac acl_grows :=
  match goal with |- _ ⊆ _ => clear; set_solver end.

(** One step never rewrites an existing item, never clears a purchase flag,
    never shrinks the allow-list, never lowers the counter. *)
Lemma step_kind_monotone env w c r w' :
  ids_bounded w → step_kind env w c r w' →
  ids_bounded w'
  ∧ (∀ imageId, creator (images_at w imageId) ≠ 0 → images_at w' imageId = images_at w imageId)
  ∧ (∀ imageId a, purchased_at w imageId a = true → purchased_at w' imageId a = true)
  ∧ acl w ⊆ acl w'
  ∧ _nextImageId w ≤ _nextImageId w'
  ∧ self w' = self w.
Proof.
  intros [Hn Hb] Hstep. unfold ids_bounded.
  destruct Hstep as [c f | h k p sk Hv Hh Hsk Hlt | i | i account].
  - split_and!; auto; lia.
  - change (_nextImageId (pay_in env w)) with (_nextImageId w) in *.
    assert (Himg : ∀ imageId, creator (images_at (list_post env h sk (pay_in env w)) imageId) ≠ 0 →
                   1 ≤ imageId ≤ _nextImageId w + 1).
    { intros imageId. rewrite images_at_list_post.
      change (_nextImageId (pay_in env w)) with (_nextImageId w).
      case_decide; [lia |]. intros Hc. apply Hb in Hc. lia. }
    split_and!; simpl; try lia; try acl_grows; try (intros; apply Himg; done).
    intros imageId Hc. rewrite images_at_list_post.
    change (_nextImageId (pay_in env w)) with (_nextImageId w).
    case_decide; [| done]. apply Hb in Hc. lia.
    done.
  - split_and!; simpl; auto; try lia; try acl_grows.
    intros imageId a Hp. rewrite purchased_at_purchase_post. by case_decide.
  - split_and!; simpl; auto; try lia; acl_grows.
Qed.

Lemma exec_monotone tx w :
  ids_bounded w →
  ids_bounded (exec tx w)
  ∧ (∀ imageId, creator (images_at w imageId) ≠ 0 →
       images_at (exec tx w) imageId = images_at w imageId)
  ∧ (∀ imageId a, purchased_at w imageId a = true →
       purchased_at (exec tx w) imageId a = true)
  ∧ acl w ⊆ acl (exec tx w)
  ∧ _nextImageId w ≤ _nextImageId (exec tx w)
  ∧ self (exec tx w) = self w.
Proof. intros Hb. eapply step_kind_monotone; [done | apply exec_step_kind]. Qed.

Lemma run_monotone txs w :
  ids_bounded w →
  ids_bounded (run txs w)
  ∧ (∀ imageId, creator (images_at w imageId) ≠ 0 →
       images_at (run txs w) imageId = images_at w imageId)
  ∧ (∀ imageId a, purchased_at w imageId a = true →
       purchased_at (run txs w) imageId a = true)
  ∧ acl w ⊆ acl (run txs w)
  ∧ _nextImageId w ≤ _nextImageId (run txs w)
  ∧ self (run txs w) = self w.
Proof.
  revert w. induction txs as [| tx txs IH]; intros w Hb; simpl.
  - split_and!; auto; lia.
  - destruct (exec_monotone tx w Hb) as (Hb1 & Hi1 & Hp1 & Ha1 & Hn1 & Hs1).
    destruct (IH _ Hb1) as (Hb2 & Hi2 & Hp2 & Ha2 & Hn2 & Hs2).
    split_and!; auto; try lia; try congruence.
    + intros imageId Hc. rewrite Hi2; rewrite Hi1; done.
    + by etrans.
Qed.

Lemma genesis_balance w a : genesis w → 0 ≤ balance w a.
Proof.
  intros (_ & _ & _ & _ & Hbal). unfold balance.
  destruct (balances w !! a) as [v |] eqn:Hv; simpl; [| lia].
  by apply (Hbal a v).
Qed.

Lemma genesis_Inv w : genesis w → Inv w.
Proof.
  intros Hg. split_and!.
  - by apply genesis_ids_bounded.
  - intros imageId. destruct Hg as (-> & _). lia.
  - intros imageId. rewrite (genesis_images_at _ _ Hg). simpl. congruence.
  - intros a. by apply genesis_balance.
Qed.

Lemma balance_pay_in env w a :
  balance (pay_in env w) a =
    (if decide (a = self w) then msg_value env else 0)
    + ((if decide (a = msg_sender env) then - msg_value env else 0) + balance w a).
Proof. unfold pay_in. apply balance_transfer. Qed.

Lemma balance_purchase_post env imageId w a :
  balance (purchase_post env imageId w) a =
    (if decide (a = creator (images_at w imageId)) then msg_value env else 0)
    + ((if decide (a = self w) then - msg_value env else 0) + balance w a).
Proof.
  unfold purchase_post. cbv zeta.
  change (balance (log_event ?e ?x)) with (balance x).
  change (balance (log_event ?e ?x)) with (balance x).
  change (balance (acl_add ?h ?c ?x)) with (balance x).
  rewrite balance_transfer. reflexivity.
Qed.

Lemma step_kind_Inv env w c r w' :
  wf_env w env → Inv w → step_kind env w c r w' → Inv w'.
Proof.
  intros (Hs0 & Hself & Hv) (Hb & Hex & Hcs & Hbal) Hstep.
  destruct (step_kind_monotone _ _ _ _ _ Hb Hstep) as (Hb' & Hi & _ & _ & _ & Hs').
  split; [done |].
  destruct Hstep as [c f | h k p sk Hv0 Hh Hsk Hlt
                    | i Hfunds Hc Hne Hp Hval Hacc Hcover | i account Hv0].
  - done.
  - change (_nextImageId (pay_in env w)) with (_nextImageId w) in *.
    change (self (pay_in env w)) with (self w) in *.
    split_and!.
    + intros imageId Hr. rewrite images_at_list_post.
      change (_nextImageId (pay_in env w)) with (_nextImageId w).
      case_decide; [done |]. apply Hex. simpl in Hr. lia.
    + intros imageId. rewrite images_at_list_post.
      change (_nextImageId (pay_in env w)) with (_nextImageId w).
      case_decide; [simpl; intros _; exact Hself |]. apply Hcs.
    + intros a. change (balance (list_post env h sk (pay_in env w)) a)
        with (balance (pay_in env w) a).
      rewrite balance_pay_in. rewrite Hv0. pose proof (Hbal a).
      repeat case_decide; lia.
  - split_and!.
    + intros imageId Hr. apply Hex, Hr.
    + intros imageId. apply Hcs.
    + intros a. rewrite balance_purchase_post.
      change (images_at (pay_in env w) i) with (images_at w i).
      change (self (pay_in env w)) with (self w) in *.
      rewrite balance_pay_in. rewrite balance_pay_in in Hcover.
      pose proof (Hbal a). pose proof (Hbal (self w)).
      repeat case_decide; subst; try lia.
  - split_and!.
    + intros imageId Hr. apply Hex, Hr.
    + intros imageId. apply Hcs.
    + intros a. change (balance (grant_post i account (pay_in env w)) a)
        with (balance (pay_in env w) a).
      rewrite balance_pay_in. rewrite Hv0. pose proof (Hbal a).
      repeat case_decide; lia.
Qed.

Lemma reachable_Inv w : reachable w → Inv w.
Proof.
  induction 1 as [w Hg | w tx Hr IH Hwf].
  - by apply genesis_Inv.
  - eapply step_kind_Inv; [exact Hwf | exact IH | apply exec_step_kind].
Qed.

(** ** Transactions, call by call *)

Lemma transact_purchase env imageId w :
  transact env (PurchaseImage imageId) w =
    let image := images_at w imageId in
    if bool_decide (balance w (msg_sender env) < msg_value env) then (Err OutOfFunds, w)
    else if bool_decide (creator image = 0) then (Err (Revert "Image missing"), w)
    else if bool_decide (msg_sender env = creator image)
         then (Err (Revert "Creator restricted"), w)
    else if purchased_at w imageId (msg_sender env)
         then (Err (Revert "Already purchased"), w)
    else if bool_decide (msg_value env ≠ ACCESS_PRICE)
         then (Err (Revert "Incorrect price"), w)
    else if accepts env (creator image) (msg_value env)
            && (msg_value env <=? balance (pay_in env w) (self w))
         then (Ok None, purchase_post env imageId (pay_in env w))
         else (Err (Revert "Payout failed"), w).
Proof.
  unfold transact, dispatch. cbv zeta. case_bool_decide; [done |].
  unfold mbind, M_bind, bind_. rewrite purchaseImage_unfold. cbv zeta.
  change (images_at (pay_in env w) imageId) with (images_at w imageId).
  change (purchased_at (pay_in env w)) with (purchased_at w).
  change (self (pay_in env w)) with (self w).
  repeat (case_bool_decide; [done |]).
  destruct (purchased_at w imageId (msg_sender env)); [done |].
  repeat (case_bool_decide; [done |]).
  by destruct (accepts env _ _ && _).
Qed.

Lemma transact_list env h k p w :
  transact env (ListEncryptedImage h k p) w =
    if bool_decide (balance w (msg_sender env) < msg_value env) then (Err OutOfFunds, w)
    else if bool_decide (msg_value env = 0) then
      if bool_decide (h = EmptyString) then (Err (Revert "Invalid hash"), w)
      else match fromExternal env k p with
           | None => (Err InputRejected, w)
           | Some storedKey =>
               if _nextImageId w <? MAX_UINT256
               then (Ok (Some (_nextImageId w + 1)), list_post env h storedKey (pay_in env w))
               else (Err (Panic 17), w)
           end
    else (Err RevertNoReason, w).
Proof.
  unfold transact, dispatch. case_bool_decide; [done |].
  unfold mbind, M_bind, bind_, nonpayable.
  case_bool_decide; [| done]. unfold ret_ at 1.
  rewrite listEncryptedImage_unfold.
  change (_nextImageId (pay_in env w)) with (_nextImageId w).
  case_bool_decide; [done |].
  destruct (fromExternal env k p); [| done].
  by destruct (_nextImageId w <? MAX_UINT256).
Qed.

Lemma transact_grant env imageId account w :
  transact env (GrantAccess imageId account) w =
    let image := images_at w imageId in
    if bool_decide (balance w (msg_sender env) < msg_value env) then (Err OutOfFunds, w)
    else if bool_decide (msg_value env = 0) then
      if bool_decide (account = 0) then (Err (Revert "Invalid account"), w)
      else if bool_decide (creator image = 0) then (Err (Revert "Image missing"), w)
      else if bool_decide (creator image ≠ msg_sender env)
           then (Err (Revert "Not creator"), w)
      else (Ok None, grant_post imageId account (pay_in env w))
    else (Err RevertNoReason, w).
Proof.
  unfold transact, dispatch. cbv zeta. case_bool_decide; [done |].
  unfold mbind, M_bind, bind_, nonpayable.
  case_bool_decide; [| done]. unfold ret_ at 1.
  rewrite grantAccess_unfold. cbv zeta.
  change (images_at (pay_in env w) imageId) with (images_at w imageId).
  by repeat (case_bool_decide; [done |]).
Qed.

(** ** The sample chain is a real one *)

Lemma genesis_world0 : genesis world0.
Proof.
  unfold genesis, world0; simpl. split_and!; try reflexivity.
  repeat (apply map_Forall_insert_2; [by vm_compute |]).
  apply map_Forall_empty.
Qed.

Lemma wf_env_chain_env w sender value :
  sender ≠ 0 → sender ≠ self w → 0 ≤ value ≤ MAX_UINT256 →
  wf_env w (chain_env sender value).
Proof. intros ? ? [? ?]. unfold wf_env; simpl. auto. Qed.

Lemma reachable_world1 : reachable world1.
Proof.
  apply reach_step; [apply reach_genesis, genesis_world0 |].
  apply wf_env_chain_env; [done | done | by vm_compute].
Qed.

Lemma reachable_world2 : reachable world2.
Proof.
  apply reach_step; [apply reachable_world1 |].
  apply wf_env_chain_env; [done | by vm_compute | by vm_compute].
Qed.

(** ** Existence of items *)

Lemma getImage_Ok_iff w imageId :
  (∃ v, getImage w imageId = Ok v) ↔ creator (images_at w imageId) ≠ 0.
Proof.
  unfold getImage. cbv zeta. case_bool_decide as Hc; split; try done.
  - eauto.
  - intros [v Hv]. discriminate.
Qed.

(** C10.  On every world the gallery can reach, an item exists exactly at the
    ids from 1 to [getTotalImages]: the first listing of a fresh gallery
    returns id 1, every id in the range carries a nonzero creator, and for
    every id outside it [getImage], [hasPurchased] and [purchaseImage] all
    revert with "Image missing". *)
Theorem item_exists_iff_in_range (w : World) :
  reachable w →
  (∀ imageId, (∃ v, getImage w imageId = Ok v) ↔ 1 ≤ imageId ≤ getTotalImages w)
  ∧ (∀ imageId, 1 ≤ imageId ≤ getTotalImages w → creator (images_at w imageId) ≠ 0)
  ∧ (∀ imageId, ¬ (1 ≤ imageId ≤ getTotalImages w) →
       getImage w imageId = Err (Revert "Image missing")
       ∧ (∀ account, hasPurchased w imageId account = Err (Revert "Image missing"))
       ∧ (∀ env, msg_value env ≤ balance w (msg_sender env) →
            transact env (PurchaseImage imageId) w = (Err (Revert "Image missing"), w)))
  ∧ (genesis w → ∀ env h k p imageId w',
       transact env (ListEncryptedImage h k p) w = (Ok (Some imageId), w') → imageId = 1).
Proof.
  intros Hr. destruct (reachable_Inv w Hr) as ((Hn & Hb) & Hex & _ & _).
  unfold getTotalImages. split_and!.
  - intros imageId. rewrite getImage_Ok_iff. split; [apply Hb | apply Hex].
  - apply Hex.
  - intros imageId Hout.
    assert (Hz : creator (images_at w imageId) = 0).
    { destruct (decide (creator (images_at w imageId) = 0)) as [| Hc]; [done |].
      apply Hb in Hc. contradiction. }
    split_and!.
    + unfold getImage. cbv zeta. by rewrite bool_decide_false by (rewrite Hz; tauto).
    + intros account. unfold hasPurchased. cbv zeta.
      by rewrite bool_decide_false by (rewrite Hz; tauto).
    + intros env Hfunds. rewrite transact_purchase. cbv zeta.
      rewrite bool_decide_false by lia. by rewrite bool_decide_true.
  - intros (Hz & _) env h k p imageId w'. rewrite transact_list, Hz.
    repeat case_bool_decide; try (intros [=]; fail).
    destruct (fromExternal env k p); [| intros [=]].
    destruct (0 <? MAX_UINT256); intros [=]; lia.
Qed.

Lemma item_exists_iff_in_range_witness :
  getImage world1 0 = Err (Revert "Image missing")
  ∧ getImage world1 2 = Err (Revert "Image missing")
  ∧ ∃ v, getImage world1 1 = Ok v.
Proof.
  pose proof (item_exists_iff_in_range world1 reachable_world1) as (Hiff & _ & Hout & _).
  split_and!.
  - apply (Hout 0). vm_compute. intros [H _]. by apply H.
  - apply (Hout 2). vm_compute. intros [_ H]. by apply H.
  - apply (Hiff 1). by vm_compute.
Defined.

(** ** Permissions only grow *)

Lemma hasPurchased_true_iff w imageId account :
  hasPurchased w imageId account = Ok true ↔
    creator (images_at w imageId) ≠ 0
    ∧ (account = creator (images_at w imageId) ∨ purchased_at w imageId account = true).
Proof.
  unfold hasPurchased. cbv zeta. case_bool_decide as Hc.
  - split.
    + intros [= Hor]. apply orb_true_iff in Hor as [Ha | Hp]; [| auto].
      apply bool_decide_eq_true in Ha. auto.
    + intros [_ [Ha | Hp]]; f_equal; apply orb_true_iff.
      * left. by apply bool_decide_eq_true.
      * by right.
  - split; [discriminate | tauto].
Qed.

(** C8.  Authorization is monotonic: from any world the gallery can reach,
    a principal for whom [hasPurchased] answers true still gets true after
    any sequence of further listings, purchases and grants, by any callers;
    and a pair in the FHE allow-list stays in it. *)
Theorem authorization_monotonic (w : World) (txs : list (Env * Call))
    (imageId : uint256) (account : address) (handle : euint256) :
  reachable w →
  (hasPurchased w imageId account = Ok true →
   hasPurchased (run txs w) imageId account = Ok true)
  ∧ (allowed w handle account = true → allowed (run txs w) handle account = true).
Proof.
  intros Hr. destruct (reachable_Inv w Hr) as (Hb & _).
  destruct (run_monotone txs w Hb) as (_ & Himg & Hpur & Hacl & _).
  split.
  - rewrite !hasPurchased_true_iff. intros [Hc Hor].
    rewrite (Himg _ Hc). split; [done |].
    destruct Hor as [Ha | Hp]; [by left | right; by apply Hpur].
  - unfold allowed. rewrite !bool_decide_eq_true. apply Hacl.
Qed.

Lemma authorization_monotonic_witness :
  hasPurchased (run [tx_grant1; tx_list1; tx_buy1] world2) 1 2 = Ok true
  ∧ allowed (run [tx_grant1; tx_list1; tx_buy1] world2) 77 2 = true.
Proof.
  pose proof (authorization_monotonic world2 [tx_grant1; tx_list1; tx_buy1] 1 2 77
                reachable_world2) as [H1 H2].
  split; [apply H1 | apply H2]; by vm_compute.
Defined.

(** ** Purchases *)

(** C3.  After a successful purchase of an item by a principal, and whatever
    happens in between, another [purchaseImage] of the same item by the same
    principal reverts with "Already purchased" and leaves the whole world,
    the allow-list and the purchase flags included, as it was. *)
Theorem second_purchase_rejected (w w1 : World) (env1 env2 : Env)
    (imageId : uint256) (txs : list (Env * Call)) :
  reachable w →
  transact env1 (PurchaseImage imageId) w = (Ok None, w1) →
  msg_sender env2 = msg_sender env1 →
  msg_value env2 ≤ balance (run txs w1) (msg_sender env2) →
  transact env2 (PurchaseImage imageId) (run txs w1)
    = (Err (Revert "Already purchased"), run txs w1)
  ∧ acl (exec (env2, PurchaseImage imageId) (run txs w1)) = acl (run txs w1)
  ∧ _hasPurchased (exec (env2, PurchaseImage imageId) (run txs w1))
      = _hasPurchased (run txs w1).
Proof.
  intros Hr Hbuy Hsame Hfunds.
  destruct (reachable_Inv w Hr) as (Hb & _).
  pose proof (transact_step_kind _ _ _ _ _ Hbuy) as Hstep.
  destruct (step_kind_monotone _ _ _ _ _ Hb Hstep) as (Hb1 & Himg1 & _).
  inversion Hstep as [| | i Hf Hc Hne Hp Hval Hacc Hcover |]; subst.
  destruct (run_monotone txs _ Hb1) as (_ & Himg & Hpur & _).
  assert (Hc1 : creator (images_at (purchase_post env1 imageId (pay_in env1 w)) imageId) ≠ 0)
    by (rewrite Himg1; done).
  assert (Hflag : purchased_at (purchase_post env1 imageId (pay_in env1 w)) imageId
                    (msg_sender env1) = true).
  { rewrite purchased_at_purchase_post. by rewrite decide_True. }
  assert (Hgoal : transact env2 (PurchaseImage imageId)
                    (run txs (purchase_post env1 imageId (pay_in env1 w)))
                  = (Err (Revert "Already purchased"),
                     run txs (purchase_post env1 imageId (pay_in env1 w)))).
  { rewrite transact_purchase. cbv zeta.
    rewrite bool_decide_false by lia.
    rewrite (Himg _ Hc1), (Himg1 _ Hc).
    rewrite bool_decide_false by done.
    rewrite bool_decide_false by congruence.
    rewrite Hsame. by rewrite (Hpur _ _ Hflag). }
  split; [exact Hgoal |]. unfold exec; simpl. by rewrite Hgoal.
Qed.

Lemma second_purchase_rejected_witness :
  transact (chain_env 2 ACCESS_PRICE) (PurchaseImage 1) (run [tx_grant1] world2)
    = (Err (Revert "Already purchased"), run [tx_grant1] world2).
Proof.
  refine (proj1 (second_purchase_rejected world1 world2
            (chain_env 2 ACCESS_PRICE) (chain_env 2 ACCESS_PRICE) 1 [tx_grant1]
            reachable_world1 _ _ _)).
  - by vm_compute.
  - reflexivity.
  - by vm_compute.
Defined.

(** C7, as stated, fails.  Item 1 exists, account 2 is not its creator, and
    account 2 offers one wei less (and one wei more) than [ACCESS_PRICE]:
    having already purchased the item, it is turned away with
    "Already purchased", not "Incorrect price". *)
Lemma price_mismatch_not_for_every_principal :
  getImage world2 1 = Ok (1, "ipfs://sample-hash", ACCESS_PRICE, 1700000000, 77)
  ∧ (transact (chain_env 2 (ACCESS_PRICE - 1)) (PurchaseImage 1) world2).1
      = Err (Revert "Already purchased")
  ∧ (transact (chain_env 2 (ACCESS_PRICE + 1)) (PurchaseImage 1) world2).1
      = Err (Revert "Already purchased").
Proof. by vm_compute. Qed.

(** C7, amended.  For an existing item and a caller who is not its creator
    and holds no purchase flag for it, any payment other than [ACCESS_PRICE]
    (one wei less and one wei more included) reverts with "Incorrect price"
    and changes nothing; a caller who already holds the flag is rejected
    with "Already purchased" whatever the payment. *)
Theorem wrong_price_rejected (w : World) (env : Env) (imageId : uint256) :
  creator (images_at w imageId) ≠ 0 →
  msg_sender env ≠ creator (images_at w imageId) →
  msg_value env ≤ balance w (msg_sender env) →
  (purchased_at w imageId (msg_sender env) = false →
   msg_value env ≠ ACCESS_PRICE →
   transact env (PurchaseImage imageId) w = (Err (Revert "Incorrect price"), w))
  ∧ (purchased_at w imageId (msg_sender env) = true →
     transact env (PurchaseImage imageId) w = (Err (Revert "Already purchased"), w)).
Proof.
  intros Hc Hne Hfunds. split; intros Hp; [intros Hv |];
    rewrite transact_purchase; cbv zeta;
    rewrite bool_decide_false by lia;
    rewrite bool_decide_false by done;
    rewrite bool_decide_false by done;
    rewrite Hp; [| done].
  by rewrite bool_decide_true.
Qed.

Lemma wrong_price_rejected_witness :
  transact (chain_env 2 (ACCESS_PRICE - 1)) (PurchaseImage 1) world1
    = (Err (Revert "Incorrect price"), world1)
  ∧ transact (chain_env 2 (ACCESS_PRICE + 1)) (PurchaseImage 1) world1
    = (Err (Revert "Incorrect price"), world1).
Proof.
  split.
  - refine (proj1 (wrong_price_rejected world1 (chain_env 2 (ACCESS_PRICE - 1)) 1 _ _ _) _ _);
      by vm_compute.
  - refine (proj1 (wrong_price_rejected world1 (chain_env 2 (ACCESS_PRICE + 1)) 1 _ _ _) _ _);
      by vm_compute.
Defined.

(** ** Grants *)

(** C1, as stated, fails.  The creator (account 1) grants account 3 access to
    item 1; the call succeeds and puts account 3 in the allow-list of the
    item's key, yet [hasPurchased 1 3] still answers false. *)
Lemma grant_does_not_set_hasPurchased :
  getImage world1 1 = Ok (1, "ipfs://sample-hash", ACCESS_PRICE, 1700000000, 77)
  ∧ transact (chain_env 1 0) (GrantAccess 1 3) world1 = (Ok None, exec tx_grant1 world1)
  ∧ allowed (exec tx_grant1 world1) 77 3 = true
  ∧ hasPurchased (exec tx_grant1 world1) 1 3 = Ok false.
Proof. by vm_compute. Qed.

(** C1, amended.  After a successful [grantAccess imageId account] the
    account is in the FHE allow-list of the item's sealed key; the item and
    the purchase flags are untouched, so [hasPurchased imageId account]
    answers what it answered before: true exactly when the account is the
    creator or holds a purchase flag for the item. *)
Theorem grant_adds_to_allow_list (w w' : World) (env : Env)
    (imageId : uint256) (account : address) (r : option uint256) :
  transact env (GrantAccess imageId account) w = (Ok r, w') →
  allowed w' (encryptedKey (images_at w imageId)) account = true
  ∧ images_at w' imageId = images_at w imageId
  ∧ hasPurchased w' imageId account = hasPurchased w imageId account
  ∧ hasPurchased w' imageId account
      = Ok (bool_decide (account = msg_sender env) || purchased_at w imageId account).
Proof.
  rewrite transact_grant. cbv zeta.
  case_bool_decide as Hf; [intros [=] |].
  case_bool_decide as Hv; [| intros [=]].
  case_bool_decide as Ha; [intros [=] |].
  case_bool_decide as Hc; [intros [=] |].
  case_bool_decide as Hs; [intros [=] |].
  intros [= <- <-].
  assert (Hcre : creator (images_at w imageId) = msg_sender env).
  { destruct (decide (creator (images_at w imageId) = msg_sender env)); tauto. }
  split_and!.
  - unfold allowed, grant_post; simpl. apply bool_decide_eq_true.
    change (images_at (pay_in env w) imageId) with (images_at w imageId).
    clear. set_solver.
  - reflexivity.
  - reflexivity.
  - unfold hasPurchased. cbv zeta.
    change (images_at (grant_post imageId account (pay_in env w)) imageId)
      with (images_at w imageId).
    change (purchased_at (grant_post imageId account (pay_in env w)))
      with (purchased_at w).
    rewrite bool_decide_true by done. by rewrite Hcre.
Qed.

Lemma grant_adds_to_allow_list_witness :
  allowed (exec tx_grant1 world1) 77 3 = true
  ∧ hasPurchased (exec tx_grant1 world1) 1 3 = hasPurchased world1 1 3.
Proof.
  assert (Hrun : transact (chain_env 1 0) (GrantAccess 1 3) world1
                 = (Ok None, exec tx_grant1 world1)) by (by vm_compute).
  pose proof (grant_adds_to_allow_list _ _ _ _ _ _ Hrun) as (H1 & _ & H3 & _).
  split; [exact H1 | exact H3].
Defined.

(** ** Payment *)

Lemma genesis_flags_paid w : genesis w → flags_paid w.
Proof.
  intros (_ & _ & Hp & _) imageId buyer. unfold purchased_at.
  by rewrite Hp, lookup_empty.
Qed.

Lemma step_kind_flags_paid env w c r w' :
  ids_bounded w → flags_paid w → step_kind env w c r w' → flags_paid w'.
Proof.
  intros Hb Hpaid Hstep.
  destruct (step_kind_monotone _ _ _ _ _ Hb Hstep) as (_ & Himg & _ & Hacl & _).
  assert (Hold : ∀ imageId buyer, purchased_at w imageId buyer = true →
                 events w ⊆ events w' →
                 creator (images_at w' imageId) ≠ 0
                 ∧ allowed w' (encryptedKey (images_at w' imageId)) buyer = true
                 ∧ ImagePurchased imageId buyer ACCESS_PRICE ∈ events w').
  { intros imageId buyer Hflag Hev.
    destruct (Hpaid _ _ Hflag) as (Hc & Hal & Hlog).
    rewrite (Himg _ Hc). split_and!; [done | | by apply Hev].
    unfold allowed in *. apply bool_decide_eq_true. apply Hacl.
    by apply bool_decide_eq_true in Hal. }
  destruct Hstep as [c f | h k p sk Hv Hh Hsk Hlt
                    | i Hfunds Hc Hne Hp Hval Hacc Hcover | i account Hv0].
  - done.
  - intros imageId buyer Hflag. apply Hold; [exact Hflag |].
    simpl. apply list_subseteq_app_l. done.
  - intros imageId buyer. rewrite purchased_at_purchase_post.
    case_decide as Hnew.
    + intros _. destruct Hnew as [-> ->].
      change (images_at (purchase_post env i (pay_in env w)) i) with (images_at w i).
      split_and!; [done | |].
      * unfold allowed, purchase_post; simpl. apply bool_decide_eq_true.
        change (images_at (pay_in env w) i) with (images_at w i). clear. set_solver.
      * unfold purchase_post; simpl. rewrite Hval.
        rewrite !elem_of_app. left. right. constructor.
    + intros Hflag. apply Hold; [exact Hflag |].
      simpl. rewrite <- app_assoc. apply list_subseteq_app_l. done.
  - intros imageId buyer Hflag. apply Hold; [exact Hflag |].
    simpl. apply list_subseteq_app_l. done.
Qed.

Lemma reachable_flags_paid w : reachable w → flags_paid w.
Proof.
  induction 1 as [w Hg | w tx Hr IH Hwf].
  - by apply genesis_flags_paid.
  - eapply step_kind_flags_paid; [| exact IH | apply exec_step_kind].
    by destruct (reachable_Inv w Hr).
Qed.



Example payout_refused_rolls_back :
  transact (refusing_env 2 ACCESS_PRICE) (PurchaseImage 1) world1
    = (Err (Revert "Payout failed"), world1).
Proof. by vm_compute. Qed.

(** ** Listing *)

Lemma run_reachable txs w :
  reachable w → Forall (λ tx, wf_env w tx.1) txs → reachable (run txs w).
Proof.
  revert w. induction txs as [| tx txs IH]; intros w Hr Hwf; simpl; [done |].
  inversion Hwf as [| ? ? Htx Hrest]; subst.
  apply IH; [by apply reach_step |].
  destruct (reachable_Inv w Hr) as (Hb & _).
  destruct (exec_monotone tx w Hb) as (_ & _ & _ & _ & _ & Hself).
  eapply Forall_impl; [exact Hrest |].
  intros tx' (? & ? & ?). unfold wf_env. rewrite Hself. auto.
Qed.

(** The counter moves by one per successful listing and by nothing else; the
    ids handed out lie between its old and new values. *)
Lemma listings_counter txs w :
  _nextImageId (run txs w) = _nextImageId w + Z.of_nat (length (listings txs w))
  ∧ Forall (λ imageId, _nextImageId w < imageId ≤ _nextImageId (run txs w)) (listings txs w).
Proof.
  revert w. induction txs as [| [env c] txs IH]; intros w; simpl.
  - split; [lia | constructor].
  - destruct (IH (exec (env, c) w)) as [IHn IHf].
    unfold exec in *; simpl in *.
    destruct (transact env c w) as [r w'] eqn:Ht. simpl in *.
    apply transact_step_kind in Ht.
    destruct Ht as [c f | h k p sk Hv Hh Hsk Hlt | i | i account].
    + destruct c; (split; [exact IHn | exact IHf]).
    + change (_nextImageId (list_post env h sk (pay_in env w)))
        with (_nextImageId w + 1) in *.
      split; [simpl; lia |]. constructor; [lia |].
      eapply Forall_impl; [exact IHf |]. simpl. intros; lia.
    + split; [exact IHn | exact IHf].
    + split; [exact IHn | exact IHf].
Qed.

(** C9.  On the world reached from a fresh gallery by any run of well-formed
    calls: listing with an empty hash reverts with "Invalid hash" and leaves
    the world as it was; listing with a non-empty hash (the input proof
    accepted, the counter below its maximum) succeeds and returns the
    counter plus one, which is above every id handed out before; the new
    item records the caller as creator, so [hasPurchased] answers true for
    the caller at once and the caller is in the allow-list of the stored
    key; and [getTotalImages] is the number of successful listings so far,
    which no call ever lowers. *)
Theorem listing_allocates_fresh_id (w0 : World) (txs : list (Env * Call))
    (env : Env) (h : string) (k : Z) (p : list Z) (storedKey : euint256) :
  genesis w0 →
  Forall (λ tx, wf_env w0 tx.1) txs →
  wf_env w0 env →
  msg_value env = 0 →
  h ≠ EmptyString →
  fromExternal env k p = Some storedKey →
  getTotalImages (run txs w0) < MAX_UINT256 →
  let w := run txs w0 in
  let imageId := getTotalImages w + 1 in
  let w' := exec (env, ListEncryptedImage h k p) w in
  transact env (ListEncryptedImage EmptyString k p) w = (Err (Revert "Invalid hash"), w)
  ∧ (transact env (ListEncryptedImage h k p) w).1 = Ok (Some imageId)
  ∧ Forall (λ old, old < imageId) (listings txs w0)
  ∧ images_at w' imageId
      = {| creator := msg_sender env; ipfsHash := h;
           encryptedKey := storedKey; createdAt := block_timestamp env |}
  ∧ hasPurchased w' imageId (msg_sender env) = Ok true
  ∧ allowed w' storedKey (msg_sender env) = true
  ∧ getTotalImages w' = getTotalImages w + 1
  ∧ getTotalImages w = Z.of_nat (length (listings txs w0))
  ∧ (∀ tx, getTotalImages w ≤ getTotalImages (exec tx w)).
Proof.
  intros Hg Hwfs (Hs0 & Hself & Hval) Hv Hh Hsk Hlt. cbv zeta.
  pose proof (run_reachable txs w0 (reach_genesis _ Hg) Hwfs) as Hr.
  destruct (reachable_Inv _ Hr) as (Hb & _ & _ & Hbal).
  destruct (listings_counter txs w0) as [Hcount Hold].
  destruct Hg as (Hzero & _). rewrite Hzero in Hcount, Hold. simpl in Hcount.
  unfold getTotalImages in *.
  assert (Hrun : transact env (ListEncryptedImage h k p) (run txs w0)
                 = (Ok (Some (_nextImageId (run txs w0) + 1)),
                    list_post env h storedKey (pay_in env (run txs w0)))).
  { rewrite transact_list. rewrite bool_decide_false by (pose proof (Hbal (msg_sender env)); lia).
    rewrite bool_decide_true by done. rewrite bool_decide_false by done.
    rewrite Hsk. apply Z.ltb_lt in Hlt. by rewrite Hlt. }
  assert (Himg : images_at (list_post env h storedKey (pay_in env (run txs w0)))
                   (_nextImageId (run txs w0) + 1)
                 = {| creator := msg_sender env; ipfsHash := h;
                      encryptedKey := storedKey; createdAt := block_timestamp env |}).
  { rewrite images_at_list_post.
    change (_nextImageId (pay_in env (run txs w0))) with (_nextImageId (run txs w0)).
    by rewrite decide_True. }
  unfold exec. simpl. rewrite Hrun. simpl. split_and!.
  - rewrite transact_list. rewrite bool_decide_false by (pose proof (Hbal (msg_sender env)); lia).
    rewrite bool_decide_true by done. by rewrite bool_decide_true.
  - done.
  - eapply Forall_impl; [exact Hold |]. simpl. intros; lia.
  - exact Himg.
  - apply hasPurchased_true_iff. rewrite Himg. simpl. auto.
  - unfold allowed. apply bool_decide_eq_true. clear. set_solver.
  - done.
  - done.
  - intros tx. destruct (exec_monotone tx _ Hb) as (_ & _ & _ & _ & Hmono & _). exact Hmono.
Qed.

Lemma listing_allocates_fresh_id_witness :
  (transact (chain_env 3 0) (ListEncryptedImage "ipfs://second" 88 [])
     (run [tx_list1; tx_buy1] world0)).1 = Ok (Some 2)
  ∧ hasPurchased
      (exec (chain_env 3 0, ListEncryptedImage "ipfs://second" 88 [])
         (run [tx_list1; tx_buy1] world0)) 2 3 = Ok true.
Proof.
  assert (Hwfs : Forall (λ tx, wf_env world0 tx.1) [tx_list1; tx_buy1]).
  { repeat constructor; by vm_compute. }
  assert (Hwf : wf_env world0 (chain_env 3 0)).
  { apply wf_env_chain_env; [done | done | by vm_compute]. }
  pose proof (listing_allocates_fresh_id world0 [tx_list1; tx_buy1] (chain_env 3 0)
                "ipfs://second" 88 [] 88 genesis_world0 Hwfs Hwf eq_refl
                ltac:(discriminate) eq_refl ltac:(by vm_compute))
    as (_ & Hid & _ & _ & Hauth & _).
  split; [exact Hid | exact Hauth].
Defined.

(** ** The scenarios of the contract's test suite *)

(** One listing: the counter reads 1, the creator is authorized, the buyer
    is not yet. *)
Example scenario_after_listing :
  getTotalImages world1 = 1
  ∧ hasPurchased world1 1 1 = Ok true
  ∧ hasPurchased world1 1 2 = Ok false
  ∧ getImage world1 1 = Ok (1, "ipfs://sample-hash", ACCESS_PRICE, 1700000000, 77).
Proof. by vm_compute. Qed.

(** The buyer pays [ACCESS_PRICE]: the creator's balance grows by exactly
    that, the buyer is authorized and may unseal the key, both events are
    logged; a third party is still a stranger. *)
Example scenario_after_purchase :
  balance world2 1 - balance world1 1 = ACCESS_PRICE
  ∧ hasPurchased world2 1 2 = Ok true
  ∧ allowed world2 77 2 = true
  ∧ hasPurchased world2 1 3 = Ok false
  ∧ allowed world2 77 3 = false
  ∧ events world2 = [ ImageListed 1 1 "ipfs://sample-hash";
                      ImagePurchased 1 2 ACCESS_PRICE;
                      AccessGranted 1 2 ].
Proof. by vm_compute. Qed.

(** The creator cannot buy their own item. *)
Example scenario_creator_restricted :
  transact (chain_env 1 ACCESS_PRICE) (PurchaseImage 1) world1
  = (Err (Revert "Creator restricted"), world1).
Proof. by vm_compute. Qed.

(** Only the creator grants, and not to the zero address. *)
Example scenario_grant_guards :
  (transact (chain_env 2 0) (GrantAccess 1 3) world1).1 = Err (Revert "Not creator")
  ∧ (transact (chain_env 1 0) (GrantAccess 1 0) world1).1 = Err (Revert "Invalid account")
  ∧ (transact (chain_env 1 0) (GrantAccess 5 3) world1).1 = Err (Revert "Image missing").
Proof. by vm_compute. Qed.

End GalleryProofs.

(** * Part II, proofs: the cipher utilities *)

Module CryptoProofs.
Import Crypto.

(** ** The cipher round trip *)

Lemma gctr_involutive key iv data : gctr key iv (gctr key iv data) = data.
Proof.
  unfold gctr. apply list_eq. intros i.
  rewrite !list_lookup_imap.
  match goal with |- _ <$> (_ <$> ?x) = _ => destruct x as [b |] end; simpl; [| done].
  f_equal. by rewrite Z.lxor_assoc, Z.lxor_nilpotent, Z.lxor_0_r.
Qed.

Lemma length_gctr key iv data : length (gctr key iv data) = length data.
Proof. unfold gctr. apply length_imap. Qed.

Lemma length_gcm_tag key iv c : length (gcm_tag key iv c) = 16%nat.
Proof. unfold gcm_tag, bytes_of_block. by rewrite length_map, length_seq. Qed.

Lemma length_subtle_encrypt key iv plain :
  length (subtle_encrypt key iv plain) = (length plain + 16)%nat.
Proof.
  unfold subtle_encrypt. by rewrite length_app, length_gctr, length_gcm_tag.
Qed.

Lemma subtle_decrypt_encrypt key iv plain :
  subtle_decrypt key iv (subtle_encrypt key iv plain) = Done plain.
Proof.
  unfold subtle_decrypt. rewrite length_subtle_encrypt.
  replace (length plain + 16 <? 16)%nat with false
    by (symmetry; apply Nat.ltb_ge; lia).
  replace (length plain + 16 - 16)%nat with (length (gctr key iv plain))
    by (rewrite length_gctr; lia).
  unfold subtle_encrypt. rewrite take_app_length, drop_app_length.
  rewrite bool_decide_true by done. by rewrite gctr_involutive.
Qed.

(** C2.  For every plaintext, every nonce of [AES_IV_LENGTH] bytes drawn by
    [encryptContent] and every hex key that [importAesKey] accepts (one that
    denotes 32 bytes), [encryptContent] returns a package and
    [decryptContent] applied to that package under the same key returns
    exactly the plaintext. *)
Theorem decrypt_encrypt_roundtrip (plain iv : bytes) (keyHex : string) (key : bytes) :
  length iv = AES_IV_LENGTH →
  importAesKey keyHex = Done key →
  ∃ payload,
    encryptContent iv plain keyHex = Done payload
    ∧ decryptContent payload keyHex = Done plain.
Proof.
  intros Hiv Hkey. exists (iv ++ subtle_encrypt key iv plain). split.
  - unfold encryptContent. by rewrite Hkey.
  - unfold decryptContent. rewrite length_app, length_subtle_encrypt, Hiv.
    replace (AES_IV_LENGTH + (length plain + 16) <=? AES_IV_LENGTH)%nat with false
      by (symmetry; apply Nat.leb_gt; lia).
    rewrite Hkey. rewrite <- Hiv at 1 2.
    rewrite take_app_length, drop_app_length.
    apply subtle_decrypt_encrypt.
Qed.

Lemma decrypt_encrypt_roundtrip_witness :
  ∃ payload,
    encryptContent sample_iv sample_plain sample_keyHex = Done payload
    ∧ decryptContent payload sample_keyHex = Done sample_plain.
Proof.
  apply (decrypt_encrypt_roundtrip sample_plain sample_iv sample_keyHex sample_key).
  - reflexivity.
  - by vm_compute.
Defined.

(** The package of the sample, computed: nonce, three bytes of ciphertext,
    sixteen bytes of tag. *)
Example encryptContent_sample :
  encryptContent sample_iv sample_plain sample_keyHex
  = Done [1; 2; 3; 4; 5; 6; 7; 8; 9; 10; 11; 12; 74; 133; 151;
          216; 41; 18; 75; 223; 59; 129; 74; 110; 221; 122; 99; 79; 143; 200; 17].
Proof. by vm_compute. Qed.

(** The model of the platform cipher agrees with test cases 13 and 14 of the
    GCM specification (zero key, zero nonce). *)
Example gcm_test_case_13 :
  subtle_encrypt (replicate 32 0) (replicate 12 0) []
  = [83; 15; 138; 251; 199; 69; 54; 185; 169; 99; 180; 241; 196; 203; 115; 139].
Proof. by vm_compute. Qed.

Example gcm_test_case_14 :
  subtle_encrypt (replicate 32 0) (replicate 12 0) (replicate 16 0)
  = [206; 167; 64; 61; 77; 96; 107; 110; 7; 78; 197; 211; 186; 243; 157; 24;
     208; 209; 200; 167; 153; 153; 107; 240; 38; 91; 152; 181; 212; 138; 185; 25].
Proof. by vm_compute. Qed.

(** ** Short packages *)

(** C6, as stated, fails.  A package of 13 bytes is shorter than nonce plus
    tag (12 + 16), yet [decryptContent] does not stop it: it imports the key
    (a bad key is reported first) and hands one byte to the cipher, which is
    the one to refuse it. *)
Lemma short_package_reaches_cipher :
  (length sample_short < AES_IV_LENGTH + 16)%nat
  ∧ decryptContent sample_short sample_keyHex = Thrown OperationError
  ∧ decryptContent sample_short "0x00" = Thrown BadKeyLength.
Proof. split; [simpl; lia | by vm_compute]. Qed.

(** C6, amended.  [decryptContent] throws "Encrypted payload too short" for
    every package of at most [AES_IV_LENGTH] = 12 bytes, whatever the key
    string, valid or not: nothing is imported or decrypted before.  A longer
    package never gets that error; when it is shorter than nonce plus tag
    and the key is accepted, the cipher rejects it with [OperationError]. *)
Theorem short_payload_rejected (payload : bytes) (keyHex : string) :
  ((length payload ≤ AES_IV_LENGTH)%nat →
     decryptContent payload keyHex = Thrown PayloadTooShort)
  ∧ ((AES_IV_LENGTH < length payload)%nat →
     decryptContent payload keyHex ≠ Thrown PayloadTooShort)
  ∧ ((AES_IV_LENGTH < length payload < AES_IV_LENGTH + 16)%nat →
     ∀ key, importAesKey keyHex = Done key →
     decryptContent payload keyHex = Thrown OperationError).
Proof.
  unfold decryptContent. split_and!.
  - intros Hlen. apply Nat.leb_le in Hlen. by rewrite Hlen.
  - intros Hlen. apply Nat.leb_gt in Hlen. rewrite Hlen.
    unfold importAesKey. destruct (hexToBytes keyHex) as [kb | e] eqn:Hhex.
    + destruct (negb (Nat.eqb (length kb) 32)); [done |]. unfold subtle_decrypt.
      match goal with |- context [(?a <? ?b)%nat] => destruct (a <? b)%nat end; [done |].
      by case_bool_decide.
    + unfold hexToBytes in Hhex.
      match type of Hhex with context [negb ?c] => destruct (negb c) end;
        by simplify_eq.
  - intros [Hlo Hhi] key Hkey. apply Nat.leb_gt in Hlo. rewrite Hlo, Hkey.
    unfold subtle_decrypt. rewrite length_drop.
    replace (length payload - AES_IV_LENGTH <? 16)%nat with true; [done |].
    symmetry. apply Nat.ltb_lt. unfold AES_IV_LENGTH in *.
    lia.
Qed.

Lemma short_payload_rejected_witness :
  decryptContent sample_iv "not a key" = Thrown PayloadTooShort
  ∧ decryptContent sample_short sample_keyHex = Thrown OperationError.
Proof.
  destruct (short_payload_rejected sample_iv "not a key") as (Hshort & _).
  destruct (short_payload_rejected sample_short sample_keyHex) as (_ & _ & Hmid).
  split.
  - apply Hshort. unfold AES_IV_LENGTH. simpl. lia.
  - apply (Hmid ltac:(unfold AES_IV_LENGTH; simpl; lia) sample_key). by vm_compute.
Defined.

(** ** The key is the secret *)

Lemma hex_fixed_zero k acc : hex_fixed k 0 acc = Nat.iter k (String "0") acc.
Proof.
  revert acc. induction k as [| k IH]; intros acc; [done |].
  rewrite Nat.iter_succ_r. simpl hex_fixed. rewrite Zdiv_0_l. apply IH.
Qed.

Lemma length_hex_fixed k n acc :
  String.length (hex_fixed k n acc) = (k + String.length acc)%nat.
Proof.
  revert n acc. induction k as [| k IH]; intros n acc; simpl; [done |].
  rewrite IH. simpl. lia.
Qed.

Lemma pad_to_hex_aux fuel k n acc :
  0 ≤ n < 16 ^ Z.of_nat fuel → n < 16 ^ Z.of_nat k → (0 < k)%nat →
  Nat.iter (k + String.length acc - String.length (to_hex_aux fuel n acc))
           (String "0") (to_hex_aux fuel n acc)
  = hex_fixed k n acc.
Proof.
  revert k n acc. induction fuel as [| fuel IH]; intros k n acc Hn Hk Hpos.
  - simpl in Hn. assert (n = 0) as -> by lia.
    rewrite hex_fixed_zero. simpl to_hex_aux. f_equal. lia.
  - destruct k as [| k]; [lia |]. simpl to_hex_aux. simpl hex_fixed.
    destruct (n / 16 =? 0) eqn:Hq.
    + apply Z.eqb_eq in Hq. rewrite Hq, hex_fixed_zero. simpl String.length.
      f_equal. lia.
    + apply Z.eqb_neq in Hq.
      assert (16 ≤ n).
      { destruct (Z_lt_le_dec n 16) as [Hlt |]; [| done].
        rewrite Z.div_small in Hq by lia. done. }
      assert (Hpow : ∀ j : nat, 16 ^ Z.of_nat (S j) = 16 * 16 ^ Z.of_nat j).
      { intros j. rewrite Nat2Z.inj_succ, Z.pow_succ_r by lia. done. }
      rewrite Hpow in Hn, Hk.
      assert (0 ≤ n / 16 < 16 ^ Z.of_nat fuel).
      { split; [apply Z.div_pos; lia | apply Z.div_lt_upper_bound; lia]. }
      assert (n / 16 < 16 ^ Z.of_nat k) by (apply Z.div_lt_upper_bound; lia).
      assert (0 < k)%nat.
      { destruct k; [| lia]. simpl in *. lia. }
      rewrite <- (IH k (n / 16) (String (hex_char (n mod 16)) acc)) by done.
      simpl String.length. f_equal. lia.
Qed.

Lemma keyHex_of_fixed (n : Z) :
  0 ≤ n < 2 ^ 256 →
  keyHex_of n = String "0" (String "x" (hex_fixed 64 n EmptyString)).
Proof.
  intros Hn. unfold keyHex_of, padStart0, toString16.
  replace (n <? 0) with false by (symmetry; apply Z.ltb_ge; lia).
  unfold hex_digits. do 2 f_equal.
  rewrite <- (pad_to_hex_aux (S (Z.to_nat (Z.log2 n))) 64 n EmptyString).
  - simpl String.length. f_equal; lia.
  - split; [lia |]. rewrite Nat2Z.inj_succ, Z2Nat.id by apply Z.log2_nonneg.
    destruct (decide (n = 0)) as [-> | Hne]; [done |].
    pose proof (Z.log2_spec n ltac:(lia)) as [_ Hup].
    eapply Z.lt_le_trans; [exact Hup |].
    apply Z.pow_le_mono_l. pose proof (Z.log2_nonneg n). lia.
  - change (16 ^ Z.of_nat 64) with (2 ^ 256). lia.
  - lia.
Qed.

Lemma hex_char_pair a b :
  0 ≤ a < 16 → 0 ≤ b < 16 →
  to_uint8 (parseInt16 (String (hex_char a) (String (hex_char b) EmptyString)))
  = 16 * a + b.
Proof.
  intros Ha Hb.
  assert (Hcases : ∀ x, 0 ≤ x < 16 → x ∈ seqZ 0 16).
  { intros x Hx. apply elem_of_seqZ. lia. }
  apply Hcases in Ha, Hb. vm_compute seqZ in Ha, Hb.
  set_unfold. destruct_or?; subst; try done; by vm_compute.
Qed.

Lemma hex_pairs_cons a b rest :
  hex_pairs (String a (String b rest))
  = to_uint8 (parseInt16 (String a (String b EmptyString))) :: hex_pairs rest.
Proof. reflexivity. Qed.

Lemma hex_pairs_hex_fixed m n acc :
  0 ≤ n →
  hex_pairs (hex_fixed (2 * m) n acc) = be_bytes_aux m n (hex_pairs acc).
Proof.
  revert n acc. induction m as [| m IH]; intros n acc Hn; [done |].
  replace (2 * S m)%nat with (S (S (2 * m))) by lia.
  simpl hex_fixed. rewrite IH by (apply Z.div_pos; [apply Z.div_pos |]; lia).
  rewrite hex_pairs_cons.
  rewrite hex_char_pair by (apply Z.mod_pos_bound; lia).
  simpl be_bytes_aux. rewrite Z.div_div by lia.
  change (16 * 16) with 256. do 2 f_equal.
  change 256 with (16 * 16).
  rewrite (Z.rem_mul_r n 16 16) by lia. lia.
Qed.

Lemma length_be_bytes_aux m n acc :
  length (be_bytes_aux m n acc) = (m + length acc)%nat.
Proof.
  revert n acc. induction m as [| m IH]; intros n acc; simpl; [done |].
  rewrite IH. simpl. lia.
Qed.

Lemma fold_be_bytes_aux m n acc z :
  0 ≤ n →
  fold_left (fun x b => x * 256 + b) (be_bytes_aux m n acc) z
  = fold_left (fun x b => x * 256 + b) acc (z * 256 ^ Z.of_nat m + n mod 256 ^ Z.of_nat m).
Proof.
  revert n acc z. induction m as [| m IH]; intros n acc z Hn.
  - simpl. f_equal. rewrite Z.mod_1_r. lia.
  - simpl be_bytes_aux. rewrite IH by (apply Z.div_pos; lia). simpl fold_left.
    f_equal. rewrite Nat2Z.inj_succ, Z.pow_succ_r by lia.
    rewrite (Z.rem_mul_r n 256 (256 ^ Z.of_nat m)) by lia. lia.
Qed.

Lemma block_of_be_bytes m n :
  0 ≤ n < 256 ^ Z.of_nat m → block_of_bytes (be_bytes m n) = n.
Proof.
  intros Hn. unfold block_of_bytes, be_bytes.
  rewrite fold_be_bytes_aux by lia. simpl. rewrite Z.mod_small; lia.
Qed.

Lemma hex_value_hex_char d : 0 ≤ d < 16 → hex_value (hex_char d) = Some d.
Proof.
  intros Hd.
  assert (Hin : d ∈ seqZ 0 16) by (apply elem_of_seqZ; lia).
  vm_compute seqZ in Hin. set_unfold. destruct_or?; subst; try done; by vm_compute.
Qed.

Lemma parse_digits_hex_fixed k n acc a :
  0 ≤ n →
  parse_digits (hex_fixed (S k) n acc) a
  = parse_digits acc (Some (16 ^ Z.of_nat (S k) * default 0 a + n mod 16 ^ Z.of_nat (S k))).
Proof.
  revert n acc a. induction k as [| k IH]; intros n acc a Hn.
  - simpl hex_fixed. simpl parse_digits.
    rewrite hex_value_hex_char by (apply Z.mod_pos_bound; lia).
    do 2 f_equal.
  - change (hex_fixed (S (S k)) n acc)
      with (hex_fixed (S k) (n / 16) (String (hex_char (n mod 16)) acc)).
    rewrite IH by (apply Z.div_pos; lia). simpl parse_digits.
    rewrite hex_value_hex_char by (apply Z.mod_pos_bound; lia).
    do 2 f_equal. simpl default.
    rewrite (Nat2Z.inj_succ (S k)), (Z.pow_succ_r _ (Z.of_nat (S k))) by lia.
    rewrite (Z.rem_mul_r n 16 (16 ^ Z.of_nat (S k))) by lia. lia.
Qed.

Lemma hex_fixed_all_digits k n acc :
  0 ≤ n →
  forallb (fun c => bool_decide (is_Some (hex_value c))) (list_ascii_of_string acc) = true →
  forallb (fun c => bool_decide (is_Some (hex_value c)))
          (list_ascii_of_string (hex_fixed k n acc)) = true.
Proof.
  revert n acc. induction k as [| k IH]; intros n acc Hn Hacc; [done |].
  simpl hex_fixed. apply IH; [apply Z.div_pos; lia |].
  simpl. rewrite Hacc, andb_true_r. apply bool_decide_eq_true.
  rewrite hex_value_hex_char by (apply Z.mod_pos_bound; lia). by eexists.
Qed.

(** The key string of a 256-bit number denotes its 32 big-endian bytes. *)
Lemma importAesKey_keyHex_of (k : Z) :
  0 ≤ k < 2 ^ 256 → importAesKey (keyHex_of k) = Done (be_bytes 32 k).
Proof.
  intros Hk. rewrite keyHex_of_fixed by done. unfold importAesKey, hexToBytes.
  rewrite length_hex_fixed. simpl negb.
  rewrite (hex_pairs_hex_fixed 32) by lia.
  unfold be_bytes. by rewrite length_be_bytes_aux.
Qed.

(** [handleEncrypt]: for the private key string of any 256-bit number, the
    integer sealed on chain is that number and the AES key is its 32-byte
    big-endian encoding. *)
Lemma handleEncrypt_key_is_secret (secret : Z) :
  0 ≤ secret < 2 ^ 256 →
  sealed_secret_of_private_key (keyHex_of secret) = Some secret
  ∧ aes_key_of_private_key (keyHex_of secret) = Done (be_bytes 32 secret).
Proof.
  intros Hs. split.
  - rewrite keyHex_of_fixed by done.
    unfold sealed_secret_of_private_key, BigInt_of_hex.
    rewrite hex_fixed_all_digits by (done || lia).
    rewrite (parse_digits_hex_fixed 63) by lia. simpl parse_digits.
    f_equal. simpl default. rewrite Z.mod_small; [lia |].
    change (16 ^ Z.of_nat 64) with (2 ^ 256). lia.
  - unfold aes_key_of_private_key. by apply importAesKey_keyHex_of.
Qed.

(** C5.  For every identity secret (a 256-bit integer), the key that
    [handleDecrypt] passes to [decryptContent] is accepted by
    [importAesKey] and is the 32-byte big-endian encoding of the secret
    itself: the secret is read back from the key, no digest stands between
    them. *)
Theorem aes_key_is_sealed_secret (secret : Z) :
  0 ≤ secret < 2 ^ 256 →
  importAesKey (keyHex_of secret) = Done (be_bytes 32 secret)
  ∧ block_of_bytes (be_bytes 32 secret) = secret.
Proof.
  intros Hs. split; [| by apply block_of_be_bytes].
  rewrite keyHex_of_fixed by done. unfold importAesKey, hexToBytes.
  rewrite length_hex_fixed. simpl negb.
  rewrite (hex_pairs_hex_fixed 32) by lia.
  unfold be_bytes. by rewrite length_be_bytes_aux.
Qed.

Lemma aes_key_is_sealed_secret_witness :
  importAesKey (keyHex_of 1) = Done sample_key
  ∧ block_of_bytes sample_key = 1.
Proof.
  apply (aes_key_is_sealed_secret 1). by vm_compute.
Defined.


(** The same on the encrypting side, [handleEncrypt]: the private key string
    of the random wallet is both the AES key and, read as a BigInt, the
    integer that is sealed. *)
Example aes_key_is_the_secret_sample :
  sealed_secret_of_private_key sample_keyHex = Some 1
  ∧ aes_key_of_private_key sample_keyHex = Done sample_key
  ∧ block_of_bytes sample_key = 1.
Proof. by vm_compute. Qed.

End CryptoProofs.

(** * Part I, continued: more of the gallery contract *)

Module GalleryMore.
Import Gallery GalleryProofs.

(** ** The creator and the purchase *)

(** X1.  The creator of an existing item cannot purchase it: whatever the
    value sent and whatever else holds, the call reverts with
    "Creator restricted" and changes nothing, while [hasPurchased] already
    answers true for the creator. *)
Theorem creator_cannot_purchase (w : World) (env : Env) (imageId : uint256) :
  creator (images_at w imageId) ≠ 0 →
  msg_sender env = creator (images_at w imageId) →
  msg_value env ≤ balance w (msg_sender env) →
  transact env (PurchaseImage imageId) w = (Err (Revert "Creator restricted"), w)
  ∧ hasPurchased w imageId (msg_sender env) = Ok true.
Proof.
  intros Hc Hs Hfunds. split.
  - rewrite transact_purchase. cbv zeta.
    rewrite bool_decide_false by lia.
    rewrite bool_decide_false by done.
    by rewrite bool_decide_true.
  - apply hasPurchased_true_iff. auto.
Qed.

Lemma creator_cannot_purchase_witness :
  transact (chain_env 1 ACCESS_PRICE) (PurchaseImage 1) world2
    = (Err (Revert "Creator restricted"), world2)
  ∧ hasPurchased world2 1 1 = Ok true.
Proof.
  apply (creator_cannot_purchase world2 (chain_env 1 ACCESS_PRICE) 1); by vm_compute.
Defined.

(** ** Who enters the allow-list *)



(** X3.  Granting again is harmless: after a successful grant the same call
    succeeds once more, and the second time it changes neither the
    allow-list nor the storage nor any balance; it only logs another
    [AccessGranted]. *)
Theorem grant_again_is_noop (w w1 : World) (env : Env)
    (imageId : uint256) (account : address) (r : option uint256) :
  transact env (GrantAccess imageId account) w = (Ok r, w1) →
  ∃ w2, transact env (GrantAccess imageId account) w1 = (Ok None, w2)
        ∧ acl w2 = acl w1
        ∧ _images w2 = _images w1
        ∧ _hasPurchased w2 = _hasPurchased w1
        ∧ _nextImageId w2 = _nextImageId w1
        ∧ (∀ a, balance w2 a = balance w1 a)
        ∧ events w2 = events w1 ++ [AccessGranted imageId account].
Proof.
  rewrite transact_grant. cbv zeta.
  case_bool_decide as Hf; [intros [=] |].
  case_bool_decide as Hv; [| intros [=]].
  case_bool_decide as Ha; [intros [=] |].
  case_bool_decide as Hc; [intros [=] |].
  case_bool_decide as Hs; [intros [=] |].
  intros [= <- <-].
  assert (Hbal : ∀ a, balance (grant_post imageId account (pay_in env w)) a = balance w a).
  { intros a. change (balance (grant_post imageId account (pay_in env w)) a)
      with (balance (pay_in env w) a).
    rewrite balance_pay_in, Hv. repeat case_decide; lia. }
  eexists. split.
  - rewrite transact_grant. cbv zeta.
    rewrite bool_decide_false by (rewrite Hbal; lia).
    rewrite bool_decide_true by done.
    rewrite bool_decide_false by done.
    change (images_at (grant_post imageId account (pay_in env w)) imageId)
      with (images_at w imageId).
    rewrite bool_decide_false by done.
    rewrite bool_decide_false by (intros Hn; by apply Hn). reflexivity.
  - split_and!; try reflexivity.
    + simpl.
      change (images_at (grant_post imageId account (pay_in env w)) imageId)
        with (images_at w imageId).
      change (images_at (pay_in env w) imageId) with (images_at w imageId).
      rewrite (assoc_L (∪)). by rewrite union_idemp_L.
    + intros a.
      change (balance (grant_post imageId account
                (pay_in env (grant_post imageId account (pay_in env w)))) a)
        with (balance (pay_in env (grant_post imageId account (pay_in env w))) a).
      rewrite balance_pay_in, Hv. repeat case_decide; lia.
Qed.

Lemma grant_again_is_noop_witness :
  ∃ w2, transact (chain_env 1 0) (GrantAccess 1 3) (exec tx_grant1 world1) = (Ok None, w2)
        ∧ acl w2 = acl (exec tx_grant1 world1).
Proof.
  destruct (grant_again_is_noop world1 (exec tx_grant1 world1) (chain_env 1 0) 1 3 None)
    as (w2 & Hrun & Hacl & _); [by vm_compute |].
  exists w2. split; [exact Hrun | exact Hacl].
Defined.

(** ** Items are written once *)

(** X4.  What a successful listing stored is what [getImage] returns for the
    new id from then on, after any further calls by anyone: the lister as
    creator, the hash, [ACCESS_PRICE], the block time of the listing and the
    verified key handle. *)
Theorem listed_item_is_permanent (w w1 : World) (env : Env) (h : string)
    (k : Z) (p : list Z) (imageId : uint256) (txs : list (Env * Call)) :
  reachable w →
  msg_sender env ≠ 0 →
  transact env (ListEncryptedImage h k p) w = (Ok (Some imageId), w1) →
  ∃ storedKey,
    fromExternal env k p = Some storedKey
    ∧ getImage (run txs w1) imageId
      = Ok (msg_sender env, h, ACCESS_PRICE, block_timestamp env, storedKey).
Proof.
  intros Hr Hs Ht. destruct (reachable_Inv w Hr) as (Hb & _).
  pose proof (transact_step_kind _ _ _ _ _ Ht) as Hstep.
  destruct (step_kind_monotone _ _ _ _ _ Hb Hstep) as (Hb1 & _).
  inversion Hstep as [| h' k' p' sk Hv Hh Hsk Hlt | |]; subst.
  exists sk. split; [done |].
  assert (Himg : images_at (list_post env h sk (pay_in env w)) (_nextImageId w + 1)
                 = {| creator := msg_sender env; ipfsHash := h;
                      encryptedKey := sk; createdAt := block_timestamp env |}).
  { rewrite images_at_list_post.
    change (_nextImageId (pay_in env w)) with (_nextImageId w). by rewrite decide_True. }
  destruct (run_monotone txs _ Hb1) as (_ & Hkeep & _).
  unfold getImage. cbv zeta. rewrite Hkeep by (rewrite Himg; done).
  rewrite Himg. simpl. by rewrite bool_decide_true.
Qed.

Lemma listed_item_is_permanent_witness :
  ∃ storedKey,
    fromExternal (chain_env 1 0) 77 [] = Some storedKey
    ∧ getImage (run [tx_buy1; tx_grant1] world1) 1
      = Ok (1, "ipfs://sample-hash", ACCESS_PRICE, 1700000000, storedKey).
Proof.
  apply (listed_item_is_permanent world0 world1 (chain_env 1 0) "ipfs://sample-hash"
           77 [] 1 [tx_buy1; tx_grant1]).
  - apply reach_genesis, genesis_world0.
  - done.
  - by vm_compute.
Defined.

(** ** The view and the allow-list *)

Lemma reachable_creators_allowed w :
  reachable w →
  ∀ imageId, creator (images_at w imageId) ≠ 0 →
    allowed w (encryptedKey (images_at w imageId)) (creator (images_at w imageId)) = true
    ∧ allowed w (encryptedKey (images_at w imageId)) (self w) = true.
Proof.
  induction 1 as [w Hg | w [env c] Hr IH Hwf].
  - intros imageId. rewrite (genesis_images_at _ _ Hg). simpl. congruence.
  - destruct (reachable_Inv w Hr) as (Hb & _).
    pose proof (exec_step_kind (env, c) w) as Hstep. simpl in Hstep.
    destruct (step_kind_monotone _ _ _ _ _ Hb Hstep) as (_ & Himg & _ & Hacl & _ & Hself).
    assert (Hold : ∀ imageId, creator (images_at w imageId) ≠ 0 →
              allowed (exec (env, c) w) (encryptedKey (images_at w imageId))
                      (creator (images_at w imageId)) = true
              ∧ allowed (exec (env, c) w) (encryptedKey (images_at w imageId))
                        (self w) = true).
    { intros imageId Hc. destruct (IH _ Hc) as [H1 H2]. unfold allowed in *.
      rewrite !bool_decide_eq_true in *. split; by apply Hacl. }
    intros imageId Hc'. rewrite Hself.
    destruct (decide (creator (images_at w imageId) = 0)) as [Hz | Hnz].
    + (* a fresh item: only a listing creates one *)
      revert Hc' Hz. unfold exec; simpl.
      destruct (transact env c w) as [r w'] eqn:Ht; simpl.
      apply transact_step_kind in Ht.
      destruct Ht as [c f | h k p sk Hv Hh Hsk Hlt | i | i a];
        try (intros Hx Hy; exfalso; by apply Hx).
      rewrite images_at_list_post.
      case_decide; [| intros Hx Hy; exfalso; by apply Hx].
      intros _ _. unfold allowed; simpl. rewrite !bool_decide_eq_true.
      split; clear; set_solver.
    + rewrite (Himg _ Hnz). by apply Hold.
Qed.

(** X5.  On every world the gallery can reach, whoever [hasPurchased]
    reports as authorized for an item (its creator, its purchasers) is in
    the FHE allow-list of the item's key, and so is the gallery itself. *)
Theorem authorized_can_unseal (w : World) (imageId : uint256) (account : address) :
  reachable w →
  hasPurchased w imageId account = Ok true →
  allowed w (encryptedKey (images_at w imageId)) account = true
  ∧ allowed w (encryptedKey (images_at w imageId)) (self w) = true.
Proof.
  intros Hr Hauth. apply hasPurchased_true_iff in Hauth as [Hc Hor].
  destruct (reachable_creators_allowed w Hr imageId Hc) as [Hcre Hself].
  split; [| done]. destruct Hor as [-> | Hflag]; [done |].
  by destruct (reachable_flags_paid w Hr _ _ Hflag) as (_ & Hal & _).
Qed.

Lemma authorized_can_unseal_witness :
  allowed world2 (encryptedKey (images_at world2 1)) 2 = true
  ∧ allowed world2 (encryptedKey (images_at world2 1)) (self world2) = true.
Proof.
  apply (authorized_can_unseal world2 1 2 reachable_world2). by vm_compute.
Defined.

(** ** Ether *)

(** X6.  The gallery keeps no ether and only a purchase moves any: after
    every call from a real account its own balance is what it was, and
    unless the call is a successful [purchaseImage] every balance is. *)
Theorem only_purchases_move_ether (w : World) (env : Env) (c : Call) :
  reachable w →
  wf_env w env →
  balance (exec (env, c) w) (self w) = balance w (self w)
  ∧ ((∀ a, balance (exec (env, c) w) a = balance w a)
     ∨ (∃ imageId, c = PurchaseImage imageId ∧ (transact env c w).1 = Ok None)).
Proof.
  intros Hr (Hs0 & Hself & Hv).
  destruct (reachable_Inv w Hr) as (_ & _ & Hcs & _).
  unfold exec; simpl.
  destruct (transact env c w) as [r w'] eqn:Ht; simpl.
  apply transact_step_kind in Ht.
  destruct Ht as [c f | h k p sk Hv0 Hh Hsk Hlt
                 | i Hfunds Hc Hne Hp Hval Hacc Hcover | i a Hv0 Ha Hc Hcre].
  - auto.
  - assert (Hsame : ∀ a, balance (list_post env h sk (pay_in env w)) a = balance w a).
    { intros a. change (balance (list_post env h sk (pay_in env w)) a)
        with (balance (pay_in env w) a).
      rewrite balance_pay_in, Hv0. repeat case_decide; lia. }
    auto.
  - split; [| right; eauto].
    rewrite balance_purchase_post.
    change (images_at (pay_in env w) i) with (images_at w i).
    change (self (pay_in env w)) with (self w).
    rewrite balance_pay_in. specialize (Hcs _ Hc).
    repeat case_decide; try congruence; lia.
  - assert (Hsame : ∀ b, balance (grant_post i a (pay_in env w)) b = balance w b).
    { intros b. change (balance (grant_post i a (pay_in env w)) b)
        with (balance (pay_in env w) b).
      rewrite balance_pay_in, Hv0. repeat case_decide; lia. }
    auto.
Qed.

Lemma only_purchases_move_ether_witness :
  balance (exec tx_buy1 world1) (self world1) = balance world1 (self world1).
Proof.
  refine (proj1 (only_purchases_move_ether world1 (chain_env 2 ACCESS_PRICE)
                   (PurchaseImage 1) reachable_world1 _)).
  apply wf_env_chain_env; [done | by vm_compute | by vm_compute].
Defined.

(** ** What changes the view *)



(** ** The event log *)

(** X8.  The event log tells the state.  On every world the gallery can
    reach: [ImagePurchased id buyer v] is in the log exactly when the buyer
    holds the purchase flag for the item, and then [v] is [ACCESS_PRICE];
    [ImageListed id creator hash] is in the log exactly when [id] is an item
    with that creator and hash; and every [AccessGranted id account] in the
    log is for an existing item whose key the account may unseal. *)
Theorem event_log_tells_state (w : World) :
  reachable w →
  (∀ imageId buyer v,
     ImagePurchased imageId buyer v ∈ events w ↔
     purchased_at w imageId buyer = true ∧ v = ACCESS_PRICE)
  ∧ (∀ imageId creator_ hash,
       ImageListed imageId creator_ hash ∈ events w ↔
       1 ≤ imageId ≤ getTotalImages w
       ∧ creator_ = creator (images_at w imageId)
       ∧ hash = ipfsHash (images_at w imageId))
  ∧ (∀ imageId account,
       AccessGranted imageId account ∈ events w →
       creator (images_at w imageId) ≠ 0
       ∧ allowed w (encryptedKey (images_at w imageId)) account = true).
Proof.
  unfold getTotalImages.
  induction 1 as [w Hg | w [env c] Hr (IHp & IHl & IHg) Hwf].
  - destruct Hg as (Hn & Himg & Hpur & Hev & _). rewrite Hev, Hn.
    unfold purchased_at. rewrite Hpur.
    split_and!; intros *; rewrite ?elem_of_nil, ?lookup_empty; simpl;
      try (split; [done | intros [? _]; (done || lia)]); done.
  - destruct (reachable_Inv w Hr) as (Hb & Hex & _).
    pose proof (exec_step_kind (env, c) w) as Hstep. simpl in Hstep.
    destruct (step_kind_monotone _ _ _ _ _ Hb Hstep) as (_ & Hkeep & _ & Hacl & _).
    assert (Hgrant_old : ∀ imageId account,
              AccessGranted imageId account ∈ events w →
              creator (images_at (exec (env, c) w) imageId) ≠ 0
              ∧ allowed (exec (env, c) w)
                  (encryptedKey (images_at (exec (env, c) w) imageId)) account = true).
    { intros imageId account Hin. destruct (IHg _ _ Hin) as [Hc Hal].
      rewrite (Hkeep _ Hc). split; [done |]. unfold allowed in *.
      rewrite bool_decide_eq_true in *. by apply Hacl. }
    clear Hstep. revert Hgrant_old. unfold exec; simpl.
    destruct (transact env c w) as [r w'] eqn:Ht; simpl.
    apply transact_step_kind in Ht.
    destruct Ht as [c f | h k p sk Hv Hh Hsk Hlt
                   | i Hfunds Hci Hne Hp Hval Hacc Hcover | i a Hv0 Ha Hci Hcre];
      intros Hgrant_old;
      cbn [events list_post purchase_post grant_post log_event acl_add transfer
           set_balance set_image set_nextImageId set_purchased pay_in];
      rewrite <- ?app_assoc; cbn [app].
    + done.
    + destruct Hb as [[Hn0 _] _]. destruct Hwf as (Hs0 & _). simpl in Hs0.
      split_and!.
      * intros imageId buyer v. rewrite elem_of_app, list_elem_of_singleton.
        rewrite IHp. change (purchased_at (list_post env h sk (pay_in env w)))
          with (purchased_at w). split; [intros [? | [=]]; done | auto].
      * intros imageId creator_ hash.
        rewrite elem_of_app, list_elem_of_singleton, IHl.
        rewrite images_at_list_post.
        change (_nextImageId (pay_in env w)) with (_nextImageId w).
        change (images_at (pay_in env w) imageId) with (images_at w imageId).
        case_decide as Hnew; simpl.
        -- subst imageId. split.
           ++ intros [[? _] | [= -> ->]]; [lia |]. split_and!; (done || lia).
           ++ intros (_ & -> & ->). by right.
        -- split.
           ++ intros [(? & ? & ?) | [= ? _ _]]; [| done]. split_and!; (done || lia).
           ++ intros (? & ? & ?). left. split_and!; (done || lia).
      * intros imageId account.
        rewrite elem_of_app, list_elem_of_singleton.
        intros [Hin | [=]]. by apply Hgrant_old.
    + rewrite Hval. split_and!.
      * intros imageId buyer v. rewrite elem_of_app, IHp.
        rewrite purchased_at_purchase_post.
        change (purchased_at (pay_in env w) imageId buyer)
          with (purchased_at w imageId buyer).
        rewrite elem_of_cons, list_elem_of_singleton.
        case_decide as Hnew.
        -- destruct Hnew as [-> ->]. split.
           ++ intros [[_ ->] | [[= ->] | [=]]]; done.
           ++ intros [_ ->]. right. by left.
        -- split.
           ++ intros [? | [[= -> -> _] | [=]]]; [done |]. exfalso. by apply Hnew.
           ++ auto.
      * intros imageId creator_ hash.
        rewrite elem_of_app, elem_of_cons, list_elem_of_singleton, IHl.
        split; [intros [? | [[=] | [=]]]; done | auto].
      * intros imageId account.
        rewrite elem_of_app, elem_of_cons, list_elem_of_singleton.
        intros [Hin | [[=] | [= -> ->]]]; [by apply Hgrant_old |].
        split; [done |]. unfold allowed; simpl. apply bool_decide_eq_true.
        change (images_at (pay_in env w) i) with (images_at w i). clear. set_solver.
    + split_and!.
      * intros imageId buyer v. rewrite elem_of_app, list_elem_of_singleton, IHp.
        split; [intros [? | [=]]; done | auto].
      * intros imageId creator_ hash.
        rewrite elem_of_app, list_elem_of_singleton, IHl.
        split; [intros [? | [=]]; done | auto].
      * intros imageId account.
        rewrite elem_of_app, list_elem_of_singleton.
        intros [Hin | [= -> ->]]; [by apply Hgrant_old |].
        split; [done |]. unfold allowed; simpl. apply bool_decide_eq_true.
        change (images_at (pay_in env w) i) with (images_at w i). clear. set_solver.
Qed.

Lemma event_log_tells_state_witness :
  ImagePurchased 1 2 ACCESS_PRICE ∈ events world2
  ∧ ImageListed 1 1 "ipfs://sample-hash" ∈ events world2.
Proof.
  destruct (event_log_tells_state world2 reachable_world2) as (Hp & Hl & _).
  split.
  - apply Hp. by vm_compute.
  - apply Hl. by vm_compute.
Defined.

End GalleryMore.

(** * Part II, continued: more of the cipher utilities *)

Module CryptoMore.
Import Crypto CryptoProofs.

(** ** [bytesToHex] and [hexToBytes] *)

Lemma padStart0_toString16 (k : nat) (n : Z) :
  (0 < k)%nat → 0 ≤ n < 16 ^ Z.of_nat k →
  padStart0 k (toString16 n) = hex_fixed k n EmptyString.
Proof.
  intros Hk Hn. unfold padStart0, toString16.
  replace (n <? 0) with false by (symmetry; apply Z.ltb_ge; lia).
  unfold hex_digits.
  rewrite <- (pad_to_hex_aux (S (Z.to_nat (Z.log2 n))) k n EmptyString).
  - simpl String.length. f_equal; lia.
  - split; [lia |]. rewrite Nat2Z.inj_succ, Z2Nat.id by apply Z.log2_nonneg.
    destruct (decide (n = 0)) as [-> | Hne]; [done |].
    pose proof (Z.log2_spec n ltac:(lia)) as [_ Hup].
    eapply Z.lt_le_trans; [exact Hup |].
    apply Z.pow_le_mono_l. pose proof (Z.log2_nonneg n). lia.
  - lia.
  - done.
Qed.

Lemma byte_two_digits (b : Z) :
  0 ≤ b < 256 →
  padStart0 2 (toString16 b)
  = String (hex_char (b / 16)) (String (hex_char (b mod 16)) EmptyString).
Proof.
  intros Hb. rewrite padStart0_toString16 by (done || (change (16 ^ Z.of_nat 2) with 256; lia)).
  simpl. do 2 f_equal. apply Z.mod_small.
  split; [apply Z.div_pos; lia | apply Z.div_lt_upper_bound; lia].
Qed.

Lemma hex_of_bytes_pairs (data : bytes) :
  is_bytes data →
  let clean := foldr (fun b rest => String.append (padStart0 2 (toString16 b)) rest)
                     EmptyString data in
  hex_pairs clean = data ∧ String.length clean = (2 * length data)%nat.
Proof.
  induction 1 as [| b data Hb Hdata [IHp IHl]]; [done |].
  cbv zeta. cbn [foldr]. rewrite byte_two_digits by done.
  match goal with |- context [?x +:+ ?r] =>
    match x with String ?c1 (String ?c2 EmptyString) =>
      change (x +:+ r) with (String c1 (String c2 r))
    end
  end.
  rewrite hex_pairs_cons. split.
  - rewrite hex_char_pair.
    + f_equal; [| exact IHp]. pose proof (Z.div_mod b 16). lia.
    + split; [apply Z.div_pos; lia | apply Z.div_lt_upper_bound; lia].
    + apply Z.mod_pos_bound. lia.
  - cbn [String.length]. rewrite IHl. simpl. lia.
Qed.

(** X9.  [hexToBytes] undoes [bytesToHex]: for every byte array,
    [hexToBytes(bytesToHex(data))] returns the same bytes. *)
Theorem hexToBytes_bytesToHex (data : bytes) :
  is_bytes data → hexToBytes (bytesToHex data) = Done data.
Proof.
  intros Hdata. destruct (hex_of_bytes_pairs data Hdata) as [Hp Hl].
  unfold hexToBytes, bytesToHex. rewrite Hl, Hp.
  replace (2 * length data)%nat with (length data * 2)%nat by lia.
  by rewrite Nat.Div0.mod_mul.
Qed.

Lemma hexToBytes_bytesToHex_witness :
  hexToBytes (bytesToHex [0; 15; 16; 171; 255]) = Done [0; 15; 16; 171; 255].
Proof.
  apply (hexToBytes_bytesToHex [0; 15; 16; 171; 255]).
  repeat constructor; lia.
Defined.

Lemma hex_pairs_shape (s : string) :
  (length (hex_pairs s) = String.length s / 2)%nat ∧ is_bytes (hex_pairs s)
  ∧ ∀ c, (length (hex_pairs (String c s)) = S (String.length s) / 2)%nat
         ∧ is_bytes (hex_pairs (String c s)).
Proof.
  induction s as [| a s (IHl & IHb & IHc)].
  - split_and!; [done | constructor |]. intros c. split; [done | constructor].
  - destruct (IHc a) as [Hl Hb]. split_and!; [exact Hl | exact Hb |].
    intros c. rewrite hex_pairs_cons. split.
    + cbn [length String.length]. rewrite IHl.
      replace (S (S (String.length s))) with (1 * 2 + String.length s)%nat by lia.
      rewrite (Nat.div_add_l 1 2 (String.length s)) by lia. lia.
    + constructor; [| exact IHb]. unfold to_uint8.
      destruct (parseInt16 _); [apply Z.mod_pos_bound |]; lia.
Qed.

Lemma hexToBytes_unfold (hex : string) :
  hexToBytes hex =
    if negb (Nat.eqb (String.length (strip_0x hex) mod 2) 0) then Thrown InvalidHexString
    else Done (hex_pairs (strip_0x hex)).
Proof. reflexivity. Qed.

(** X10.  [hexToBytes] checks the length and nothing else.  With an odd
    number of characters behind the optional [0x] it throws
    'Invalid hex string'; with an even number it always returns, one byte
    per two characters, each below 256, whatever the characters are. *)
Theorem hexToBytes_checks_only_length (hex : string) :
  (Nat.Odd (String.length (strip_0x hex)) → hexToBytes hex = Thrown InvalidHexString)
  ∧ (Nat.Even (String.length (strip_0x hex)) →
     ∃ data, hexToBytes hex = Done data
             ∧ (2 * length data = String.length (strip_0x hex))%nat
             ∧ is_bytes data).
Proof.
  rewrite hexToBytes_unfold. split_and!.
  - intros [m Hm]. rewrite Hm.
    replace (2 * m + 1)%nat with (1 + m * 2)%nat by lia.
    by rewrite Nat.Div0.mod_add.
  - intros [m Hm]. rewrite Hm.
    replace (2 * m)%nat with (m * 2)%nat by lia.
    rewrite Nat.Div0.mod_mul. simpl negb.
    destruct (hex_pairs_shape (strip_0x hex)) as (Hl & Hb & _).
    eexists. split_and!; [reflexivity | | exact Hb].
    rewrite Hl, Hm. replace (2 * m)%nat with (m * 2)%nat by lia.
    rewrite Nat.div_mul by lia. lia.
Qed.

Lemma hexToBytes_checks_only_length_witness :
  hexToBytes "abc" = Thrown InvalidHexString
  ∧ ∃ data, hexToBytes "0xzz12" = Done data
            ∧ (2 * length data = String.length (strip_0x "0xzz12"))%nat
            ∧ is_bytes data.
Proof.
  split.
  - apply (proj1 (hexToBytes_checks_only_length "abc")). exists 1%nat. reflexivity.
  - apply (proj2 (hexToBytes_checks_only_length "0xzz12")). exists 2%nat. reflexivity.
Defined.

(** ** [importAesKey] *)

(** X11.  [importAesKey] accepts a key string exactly when 64 characters
    stand behind the optional [0x], whatever they are; the key is then 32
    bytes.  With another even number of characters it throws
    'AES key must be 32 bytes (256 bits)', with an odd number
    'Invalid hex string'. *)
Theorem importAesKey_accepts_64_characters (keyHex : string) :
  ((∃ key, importAesKey keyHex = Done key) ↔ String.length (strip_0x keyHex) = 64%nat)
  ∧ (∀ key, importAesKey keyHex = Done key → length key = 32%nat ∧ is_bytes key)
  ∧ (Nat.Even (String.length (strip_0x keyHex)) →
     String.length (strip_0x keyHex) ≠ 64%nat →
     importAesKey keyHex = Thrown BadKeyLength)
  ∧ (Nat.Odd (String.length (strip_0x keyHex)) →
     importAesKey keyHex = Thrown InvalidHexString).
Proof.
  unfold importAesKey. rewrite hexToBytes_unfold.
  destruct (hex_pairs_shape (strip_0x keyHex)) as (Hl & Hb & _).
  set (n := String.length (strip_0x keyHex)) in *.
  set (key0 := hex_pairs (strip_0x keyHex)) in *.
  assert (Hn : n = (2 * length key0 + n mod 2)%nat)
    by (rewrite Hl; apply Nat.div_mod_eq).
  pose proof (Nat.mod_upper_bound n 2 ltac:(lia)) as Hlt.
  clear Hl. clearbody n key0. remember (n mod 2)%nat as parity eqn:Hp.
  assert (Hodd : ∀ m, n = (2 * m + 1)%nat → parity = 1%nat).
  { intros m ->. rewrite Hp. replace (2 * m + 1)%nat with (1 + m * 2)%nat by lia.
    by rewrite Nat.Div0.mod_add. }
  assert (Heven : ∀ m, n = (2 * m)%nat → parity = 0%nat).
  { intros m ->. rewrite Hp. replace (2 * m)%nat with (m * 2)%nat by lia.
    by rewrite Nat.Div0.mod_mul. }
  clear Hp.
  destruct (Nat.eqb_spec parity 0) as [Hpar | Hpar]; simpl negb; cbv beta iota.
  - destruct (Nat.eqb_spec (length key0) 32) as [H32 | H32]; simpl negb; cbv beta iota.
    + split_and!.
      * split; [intros _; lia | intros _; by eexists].
      * intros key [= <-]. done.
      * intros _ Hne. lia.
      * intros [m Hm]. apply Hodd in Hm. lia.
    + split_and!.
      * split; [intros [key [=]] | intros H64; lia].
      * intros key [=].
      * done.
      * intros [m Hm]. apply Hodd in Hm. lia.
  - split_and!.
    + split; [intros [key [=]] | intros H64; specialize (Heven 32%nat H64); lia].
    + intros key [=].
    + intros [m Hm]. apply Heven in Hm. lia.
    + done.
Qed.

Lemma importAesKey_accepts_64_characters_witness :
  ∃ key, importAesKey
           "0xnot-hex-at-all-but-sixty-four-characters-long-so-it-is-a-key!!!!" = Done key.
Proof.
  apply (proj1 (importAesKey_accepts_64_characters _)). reflexivity.
Defined.

(** ** [decryptContent] *)

Lemma decryptContent_Done (payload plain : bytes) (keyHex : string) :
  decryptContent payload keyHex = Done plain →
  encryptContent (take AES_IV_LENGTH payload) plain keyHex = Done payload
  ∧ length payload = (length plain + 28)%nat.
Proof.
  unfold decryptContent, encryptContent.
  destruct (length payload <=? AES_IV_LENGTH)%nat eqn:Hlen; [discriminate |].
  apply Nat.leb_gt in Hlen.
  destruct (importAesKey keyHex) as [key | e]; [| discriminate].
  unfold subtle_decrypt, subtle_encrypt.
  destruct (length (drop AES_IV_LENGTH payload) <? 16)%nat eqn:Hct; [discriminate |].
  apply Nat.ltb_ge in Hct. rewrite length_drop in Hct.
  case_bool_decide as Htag; [| discriminate]. intros [= <-].
  rewrite gctr_involutive, <- Htag, take_drop, take_drop. split; [done |].
  rewrite length_gctr, length_take, length_drop. unfold AES_IV_LENGTH in *. lia.
Qed.

(** X12.  [decryptContent] returns a plaintext only for a package that
    [encryptContent] produces from that plaintext under the same key and the
    package's own first twelve bytes as nonce; the plaintext is 28 bytes
    shorter than the package. *)
Theorem decrypt_accepts_only_encrypt_output (payload plain : bytes) (keyHex : string) :
  decryptContent payload keyHex = Done plain →
  encryptContent (take AES_IV_LENGTH payload) plain keyHex = Done payload
  ∧ length payload = (length plain + 28)%nat.
Proof. apply decryptContent_Done. Qed.

Lemma decrypt_accepts_only_encrypt_output_witness :
  encryptContent (take AES_IV_LENGTH
                    [1; 2; 3; 4; 5; 6; 7; 8; 9; 10; 11; 12; 74; 133; 151; 216; 41; 18; 75;
                     223; 59; 129; 74; 110; 221; 122; 99; 79; 143; 200; 17])
                 sample_plain sample_keyHex
  = Done [1; 2; 3; 4; 5; 6; 7; 8; 9; 10; 11; 12; 74; 133; 151; 216; 41; 18; 75;
          223; 59; 129; 74; 110; 221; 122; 99; 79; 143; 200; 17].
Proof.
  apply (decrypt_accepts_only_encrypt_output _ sample_plain sample_keyHex).
  by vm_compute.
Defined.

(** X13.  A package whose tag bytes were altered is refused: if a package
    agrees with one made by [encryptContent] on everything but the last 16
    bytes and differs there, [decryptContent] throws the cipher's
    [OperationError] and returns no plaintext. *)
Theorem altered_tag_is_rejected (iv plain payload altered : bytes) (keyHex : string) :
  length iv = AES_IV_LENGTH →
  encryptContent iv plain keyHex = Done payload →
  length altered = length payload →
  take (length payload - 16) altered = take (length payload - 16) payload →
  altered ≠ payload →
  decryptContent altered keyHex = Thrown OperationError.
Proof.
  intros Hiv Henc Hlen Hsame Hdiff.
  destruct (decryptContent altered keyHex) as [plain' | e] eqn:Hdec.
  - exfalso. apply Hdiff.
    destruct (decryptContent_Done _ _ _ Hdec) as [Henc' Hlen'].
    unfold encryptContent in Henc, Henc'.
    destruct (importAesKey keyHex) as [key |]; [| discriminate].
    injection Henc as Henc. injection Henc' as Henc'.
    assert (Hl : length payload = (12 + (length plain + 16))%nat).
    { rewrite <- Henc, length_app, length_subtle_encrypt, Hiv. done. }
    assert (Hiv' : take AES_IV_LENGTH altered = iv).
    { transitivity (take AES_IV_LENGTH (take (length payload - 16) altered)).
      - rewrite take_take. f_equal. unfold AES_IV_LENGTH. lia.
      - rewrite Hsame, take_take.
        replace (AES_IV_LENGTH `min` (length payload - 16))%nat with (length iv)
          by (rewrite Hiv; unfold AES_IV_LENGTH; lia).
        rewrite <- Henc. apply take_app_length. }
    rewrite Hiv' in Henc'.
    assert (Hpl : length plain' = length plain) by lia.
    assert (Hc : gctr key iv plain' = gctr key iv plain).
    { assert (Hmid : take (length payload - 16) altered = iv ++ gctr key iv plain').
      { rewrite <- Henc'. unfold subtle_encrypt. rewrite app_assoc.
        rewrite take_app_length'; [done |].
        rewrite length_app, length_gctr, Hiv. unfold AES_IV_LENGTH. lia. }
      assert (Hmid' : take (length payload - 16) payload = iv ++ gctr key iv plain).
      { rewrite <- Henc at 2. unfold subtle_encrypt. rewrite app_assoc.
        rewrite take_app_length'; [done |].
        rewrite length_app, length_gctr, Hiv. unfold AES_IV_LENGTH. lia. }
      rewrite Hmid, Hmid' in Hsame. by apply app_inv_head in Hsame. }
    rewrite <- Henc, <- Henc'. unfold subtle_encrypt. by rewrite Hc.
  - unfold decryptContent in Hdec.
    assert (Hl : length altered = (12 + (length plain + 16))%nat).
    { rewrite Hlen. unfold encryptContent in Henc.
      destruct (importAesKey keyHex); [| discriminate]. injection Henc as <-.
      rewrite length_app, length_subtle_encrypt, Hiv. done. }
    replace (length altered <=? AES_IV_LENGTH)%nat with false in Hdec
      by (symmetry; apply Nat.leb_gt; unfold AES_IV_LENGTH; lia).
    unfold encryptContent in Henc.
    destruct (importAesKey keyHex) as [key |]; [| discriminate].
    unfold subtle_decrypt in Hdec.
    destruct (_ <? 16)%nat; [by injection Hdec as <- |].
    case_bool_decide; [discriminate | by injection Hdec as <-].
Qed.

Lemma altered_tag_is_rejected_witness :
  decryptContent
    [1; 2; 3; 4; 5; 6; 7; 8; 9; 10; 11; 12; 74; 133; 151; 216; 41; 18; 75;
     223; 59; 129; 74; 110; 221; 122; 99; 79; 143; 200; 18] sample_keyHex
  = Thrown OperationError.
Proof.
  apply (altered_tag_is_rejected sample_iv sample_plain
           [1; 2; 3; 4; 5; 6; 7; 8; 9; 10; 11; 12; 74; 133; 151; 216; 41; 18; 75;
            223; 59; 129; 74; 110; 221; 122; 99; 79; 143; 200; 17]).
  - reflexivity.
  - by vm_compute.
  - reflexivity.
  - reflexivity.
  - discriminate.
Defined.

(** ** [detectMimeType] *)

Ltac mime_cases :=
  simpl;
  repeat (match goal with
          | |- context [Z.eqb ?a ?b] => destruct (Z.eqb_spec a b); [subst |]; simpl
          end);
  split_and!; try split; try done; intros; destruct_and?; simplify_eq; done.

(** X14.  The four signatures exclude one another, so the order of the tests
    does not matter: [detectMimeType] answers 'image/png', 'image/jpeg',
    'image/gif' or 'image/webp' exactly for the data that start with that
    format's magic bytes, and it looks at the first twelve bytes only. *)
Theorem detectMimeType_by_signature (data : bytes) :
  (detectMimeType data = "image/png" ↔ take 4 data = [137; 80; 78; 71])
  ∧ (detectMimeType data = "image/jpeg" ↔ take 3 data = [255; 216; 255])
  ∧ (detectMimeType data = "image/gif" ↔ take 4 data = [71; 73; 70; 56])
  ∧ (detectMimeType data = "image/webp" ↔
     take 3 data = [82; 73; 70] ∧ take 4 (drop 8 data) = [87; 69; 66; 80])
  ∧ detectMimeType data = detectMimeType (take 12 data).
Proof.
  unfold detectMimeType, at_.
  do 12 (destruct data as [| ? data]; [mime_cases |]).
  mime_cases.
Qed.

(** ** The key, from [handleEncrypt] to [handleDecrypt] *)









End CryptoMore.

(** * Part III, proofs: the pseudo-IPFS store *)

Module PseudoIpfsProofs.
Import PseudoIpfs.

Lemma createPseudoCid_Some store timestamp draws cid :
  createPseudoCid store timestamp draws = Some cid →
  store !! cid = None ∧ ∃ random, random ∈ draws ∧ cid = candidate timestamp random.
Proof.
  induction draws as [| random rest IH]; [done |]. simpl.
  case_bool_decide as Htaken.
  - intros Hrest. destruct (IH Hrest) as (Hfree & r & Hin & ->).
    split; [done |]. exists r. split; [by right | done].
  - intros [= <-]. split.
    + by apply eq_None_not_Some.
    + exists random. split; [by left | done].
Qed.

(** The loop ends exactly when a draw gives a free name. *)
Lemma createPseudoCid_is_Some store timestamp draws :
  is_Some (createPseudoCid store timestamp draws) ↔
  ∃ random, random ∈ draws ∧ store !! candidate timestamp random = None.
Proof.
  induction draws as [| random rest IH]; simpl.
  - split; [by intros [? ?] | intros (r & Hin & _); by apply elem_of_nil in Hin].
  - case_bool_decide as Htaken.
    + rewrite IH. split.
      * intros (r & Hin & Hfree). exists r. split; [by right | done].
      * intros (r & Hin & Hfree). apply elem_of_cons in Hin as [-> | Hin].
        -- rewrite Hfree in Htaken. by destruct Htaken.
        -- by exists r.
    + split; [| by eexists]. intros _. exists random. split; [by left |].
      by apply eq_None_not_Some.
Qed.

Lemma uploadToPseudoIpfs_Some store timestamp draws payload cid store' :
  uploadToPseudoIpfs store timestamp draws payload = Some (cid, store') →
  store !! cid = None
  ∧ store' = <[cid := payload]> store
  ∧ ∃ random, random ∈ draws ∧ cid = candidate timestamp random.
Proof.
  unfold uploadToPseudoIpfs.
  destruct (createPseudoCid store timestamp draws) as [c |] eqn:Hcid; [| done].
  intros [= <- <-]. destruct (createPseudoCid_Some _ _ _ _ Hcid) as [Hfree Hr]. done.
Qed.

Lemma upload_all_Some store uploads cids final :
  upload_all store uploads = Some (cids, final) →
  length cids = length uploads
  ∧ NoDup cids
  ∧ (∀ cid, cid ∈ cids → store !! cid = None)
  ∧ (∀ cid data, store !! cid = Some data → final !! cid = Some data)
  ∧ (∀ i cid upload, cids !! i = Some cid → uploads !! i = Some upload →
       final !! cid = Some upload.2).
Proof.
  revert store cids final. induction uploads as [| [[timestamp draws] payload] rest IH];
    intros store cids final.
  - intros [= <- <-]. split_and!.
    + done.
    + apply NoDup_nil_2.
    + intros cid Hin. by apply elem_of_nil in Hin.
    + done.
    + intros i cid upload Hc. by rewrite lookup_nil in Hc.
  - simpl.
    destruct (uploadToPseudoIpfs store timestamp draws payload) as [[cid store'] |] eqn:Hup;
      [| done].
    destruct (upload_all store' rest) as [[cids' final'] |] eqn:Hrest; [| done].
    intros [= <- <-].
    destruct (uploadToPseudoIpfs_Some _ _ _ _ _ _ Hup) as (Hfree & -> & _).
    destruct (IH _ _ _ Hrest) as (Hlen & Hnd & Hfresh & Hkeep & Hget).
    split_and!.
    + simpl. by rewrite Hlen.
    + apply NoDup_cons. split; [| done]. intros Hin. apply Hfresh in Hin.
      by rewrite lookup_insert_eq in Hin.
    + intros c Hin. apply elem_of_cons in Hin as [-> | Hin]; [done |].
      apply Hfresh in Hin. apply lookup_insert_None in Hin. by destruct Hin.
    + intros c data Hc. apply Hkeep. rewrite lookup_insert_ne; [done |].
      intros <-. by rewrite Hfree in Hc.
    + intros [| i] c upload; simpl.
      * intros [= <-] [= <-]. apply Hkeep. apply lookup_insert_eq.
      * apply Hget.
Qed.

(** X16.  An upload never overwrites.  [uploadToPseudoIpfs] returns exactly
    when one of the random draws gives a name that is not in the store; the
    cid it returns is [pseudo-], the timestamp and one of the draws, it was
    not in the store before, afterwards [fetchFromIpfs] gives the payload for
    it, and every other cid fetches what it fetched before. *)
Theorem upload_never_overwrites (store : Storage) (timestamp : string)
    (draws : list string) (payload : list Z) :
  (is_Some (uploadToPseudoIpfs store timestamp draws payload) ↔
   ∃ random, random ∈ draws ∧ fetchFromIpfs store (candidate timestamp random) = None)
  ∧ ∀ cid store',
      uploadToPseudoIpfs store timestamp draws payload = Some (cid, store') →
      fetchFromIpfs store cid = None
      ∧ fetchFromIpfs store' cid = Some payload
      ∧ (∀ other, other ≠ cid → fetchFromIpfs store' other = fetchFromIpfs store other)
      ∧ ∃ random, random ∈ draws ∧ cid = candidate timestamp random.
Proof.
  split.
  - unfold fetchFromIpfs. rewrite <- createPseudoCid_is_Some. unfold uploadToPseudoIpfs.
    destruct (createPseudoCid store timestamp draws); split; intros [? ?]; by eauto.
  - intros cid store' Hup.
    destruct (uploadToPseudoIpfs_Some _ _ _ _ _ _ Hup) as (Hfree & -> & Hr).
    unfold fetchFromIpfs. split_and!; [done | apply lookup_insert_eq | | done].
    intros other Hne. by apply lookup_insert_ne.
Qed.

(** X17.  What was uploaded stays fetchable.  After any sequence of uploads
    the cids handed out are pairwise different and were not in the store
    before, each of them fetches the payload of its own upload, and
    everything that was in the store before is still fetched unchanged. *)
Theorem uploads_stay_fetchable (store final : Storage)
    (uploads : list (string * list string * list Z)) (cids : list string) :
  upload_all store uploads = Some (cids, final) →
  length cids = length uploads
  ∧ NoDup cids
  ∧ (∀ cid, cid ∈ cids → fetchFromIpfs store cid = None)
  ∧ (∀ cid data, fetchFromIpfs store cid = Some data → fetchFromIpfs final cid = Some data)
  ∧ (∀ i cid upload, cids !! i = Some cid → uploads !! i = Some upload →
       fetchFromIpfs final cid = Some upload.2).
Proof. apply upload_all_Some. Qed.

Lemma uploads_stay_fetchable_witness :
  length ["pseudo-18ca1"; "pseudo-18cb2"] = length sample_uploads
  ∧ NoDup ["pseudo-18ca1"; "pseudo-18cb2"]
  ∧ (∀ cid, cid ∈ ["pseudo-18ca1"; "pseudo-18cb2"] → fetchFromIpfs ∅ cid = None)
  ∧ (∀ cid data, fetchFromIpfs ∅ cid = Some data →
       fetchFromIpfs sample_store cid = Some data)
  ∧ (∀ i cid upload,
       ["pseudo-18ca1"; "pseudo-18cb2"] !! i = Some cid →
       sample_uploads !! i = Some upload →
       fetchFromIpfs sample_store cid = Some upload.2).
Proof.
  apply (uploads_stay_fetchable ∅ sample_store sample_uploads
           ["pseudo-18ca1"; "pseudo-18cb2"]).
  by vm_compute.
Defined.

End PseudoIpfsProofs.

(** * Part IV, proofs: the gallery list and the purchase button *)

Module FrontendProofs.
Import Gallery GalleryProofs.

Lemma fetchItem_Some w account imageId :
  creator (images_at w imageId) ≠ 0 →
  ∃ item, Frontend.fetchItem w account imageId = Some item
          ∧ Frontend.id item = imageId ∧ Frontend.shows w account item.
Proof.
  intros Hc. unfold Frontend.fetchItem, Frontend.shows, getImage, hasPurchased. cbv zeta.
  rewrite !bool_decide_true by done. eexists. split; [reflexivity |]. simpl.
  rewrite !bool_decide_true by done.
  split_and!; try done.
  destruct account as [a |].
  - destruct (decide (a = creator (images_at w imageId))) as [Heq | Hne].
    + rewrite (bool_decide_true (creator _ = a)) by done.
      split; [| done]. intros _. exists a. by rewrite bool_decide_true.
    + rewrite (bool_decide_false (creator _ = a)) by done.
      split.
      * intros Hacc. exists a. by rewrite Hacc.
      * intros (a' & [= <-] & [= Hor]). done.
  - split; [done | by intros (a & ? & _)].
Qed.

Lemma fetchAll_Some w account ids :
  Forall (λ imageId, creator (images_at w imageId) ≠ 0) ids →
  ∃ items, Frontend.fetchAll w account ids = Some items
           ∧ Frontend.id <$> items = ids ∧ Forall (Frontend.shows w account) items.
Proof.
  induction 1 as [| imageId ids Hc _ (items & Hall & Hids & Hshow)].
  - by exists [].
  - destruct (fetchItem_Some w account imageId Hc) as (item & Hitem & Hid & Hs).
    exists (item :: items). simpl. rewrite Hitem, Hall.
    split_and!; [done | f_equal; [exact Hid | exact Hids] | by constructor].
Qed.

(** An element that the comparator puts behind every other one goes to the
    end. *)
Lemma insert_sorted_last cmp x l :
  Forall (λ y, 0 < cmp x y) l → Frontend.insert_sorted cmp x l = l ++ [x].
Proof.
  induction 1 as [| y l Hy _ IH]; [done |]. simpl.
  replace (cmp x y <=? 0) with false by (symmetry; apply Z.leb_gt; lia).
  by rewrite IH.
Qed.

(** Sorting by descending id turns the ascending list around. *)
Lemma sort_ascending items start len :
  Frontend.id <$> items = seqZ start len →
  Frontend.sort (λ a b, Frontend.id b - Frontend.id a) items = reverse items.
Proof.
  revert start len. induction items as [| x items IH]; intros start len Hids; [done |].
  destruct (decide (0 < len)) as [Hlen | Hlen]; [| by rewrite seqZ_nil in Hids by lia].
  rewrite seqZ_cons, fmap_cons in Hids by done. injection Hids as Hx Hids.
  simpl. change (foldr _ [] items)
    with (Frontend.sort (λ a b, Frontend.id b - Frontend.id a) items).
  rewrite (IH _ _ Hids), reverse_cons. apply insert_sorted_last.
  apply Forall_reverse, Forall_forall. intros y Hy.
  assert (Hin : Frontend.id y ∈ seqZ (Z.succ start) (Z.pred len)).
  { rewrite <- Hids. by apply list_elem_of_fmap_2. }
  apply elem_of_seqZ in Hin. lia.
Qed.

Lemma fetchGallery_reachable (w : World) (account : option Z) :
  reachable w →
  getTotalImages w < 2 ^ 32 →
  ∃ items, Frontend.fetchGallery w account = Some items
           ∧ Frontend.id <$> items = reverse (seqZ 1 (getTotalImages w))
           ∧ Forall (Frontend.shows w account) items.
Proof.
  intros Hr Hlt. destruct (reachable_Inv w Hr) as ((Hn & _) & Hex & _).
  destruct (fetchAll_Some w account (seqZ 1 (getTotalImages w)))
    as (items & Hall & Hids & Hshow).
  { apply Forall_forall. intros imageId Hin. apply elem_of_seqZ in Hin.
    apply Hex. unfold getTotalImages in Hin. lia. }
  exists (reverse items). unfold Frontend.fetchGallery. cbv zeta.
  replace (2 ^ 32 <=? getTotalImages w) with false by (symmetry; apply Z.leb_gt; lia).
  change (map (λ index : nat, Z.of_nat index + 1) (seq 0 (Z.to_nat (getTotalImages w))))
    with (seqZ 1 (getTotalImages w)).
  rewrite Hall, (sort_ascending _ _ _ Hids).
  split_and!; [done | by rewrite fmap_reverse, Hids | by apply Forall_reverse].
Qed.

(** X18.  On every chain state the gallery can reach with fewer than 2^32
    items, [fetchGallery] succeeds and lists every item once, newest first
    (ids from [getTotalImages] down to 1); each entry carries the fields
    [getImage] returns, the price [ACCESS_PRICE], and [hasAccess] exactly
    when an account is connected for which [hasPurchased] answers true. *)
Theorem fetchGallery_shows_every_item (w : World) (account : option Z) :
  reachable w →
  getTotalImages w < 2 ^ 32 →
  ∃ items, Frontend.fetchGallery w account = Some items
           ∧ Frontend.id <$> items = reverse (seqZ 1 (getTotalImages w))
           ∧ Forall (Frontend.shows w account) items.
Proof. apply fetchGallery_reachable. Qed.

Lemma fetchGallery_shows_every_item_witness :
  ∃ items, Frontend.fetchGallery world2 (Some 2) = Some items
           ∧ Frontend.id <$> items = reverse (seqZ 1 (getTotalImages world2))
           ∧ Forall (Frontend.shows world2 (Some 2)) items.
Proof.
  apply (fetchGallery_shows_every_item world2 (Some 2) reachable_world2). by vm_compute.
Defined.



(** ** Publishing *)

Lemma fetchItem_ext w w1 account imageId :
  images_at w1 imageId = images_at w imageId →
  (∀ a, purchased_at w1 imageId a = purchased_at w imageId a) →
  Frontend.fetchItem w1 account imageId = Frontend.fetchItem w account imageId.
Proof.
  intros Himg Hpur. unfold Frontend.fetchItem, getImage, hasPurchased. cbv zeta.
  rewrite Himg. destruct account as [a |]; [| done]. by rewrite Hpur.
Qed.

Lemma fetchAll_ext w w1 account ids :
  Forall (λ imageId, images_at w1 imageId = images_at w imageId
                     ∧ ∀ a, purchased_at w1 imageId a = purchased_at w imageId a) ids →
  Frontend.fetchAll w1 account ids = Frontend.fetchAll w account ids.
Proof.
  induction 1 as [| imageId ids [Himg Hpur] _ IH]; [done |]. simpl.
  by rewrite (fetchItem_ext w w1 account imageId Himg Hpur), IH.
Qed.

Lemma fetchAll_app w account ids1 ids2 items1 items2 :
  Frontend.fetchAll w account ids1 = Some items1 →
  Frontend.fetchAll w account ids2 = Some items2 →
  Frontend.fetchAll w account (ids1 ++ ids2) = Some (items1 ++ items2).
Proof.
  revert items1. induction ids1 as [| imageId ids1 IH]; intros items1; simpl.
  - by intros [= <-].
  - destruct (Frontend.fetchItem w account imageId) as [item |]; [| done].
    destruct (Frontend.fetchAll w account ids1) as [items |]; [| done].
    intros [= <-] H2. by rewrite (IH items eq_refl H2).
Qed.

Lemma fetchAll_ids w account ids items :
  Frontend.fetchAll w account ids = Some items → Frontend.id <$> items = ids.
Proof.
  revert items. induction ids as [| imageId ids IH]; intros items; simpl.
  - by intros [= <-].
  - destruct (Frontend.fetchItem w account imageId) as [item |] eqn:Hitem; [| done].
    destruct (Frontend.fetchAll w account ids) as [items' |]; [| done].
    intros [= <-]. rewrite fmap_cons, (IH items' eq_refl). f_equal.
    unfold Frontend.fetchItem in Hitem.
    destruct (getImage w imageId) as [[[[[? ?] ?] ?] ?] |]; [| done].
    by injection Hitem as <-.
Qed.

Lemma fetchGallery_fetchAll w account items :
  getTotalImages w < 2 ^ 32 →
  Frontend.fetchAll w account (seqZ 1 (getTotalImages w)) = Some items →
  Frontend.fetchGallery w account = Some (reverse items).
Proof.
  intros Hlt Hall. unfold Frontend.fetchGallery. cbv zeta.
  replace (2 ^ 32 <=? getTotalImages w) with false by (symmetry; apply Z.leb_gt; lia).
  change (map (λ index : nat, Z.of_nat index + 1) (seq 0 (Z.to_nat (getTotalImages w))))
    with (seqZ 1 (getTotalImages w)).
  rewrite Hall. f_equal. eapply sort_ascending, fetchAll_ids, Hall.
Qed.

(** X21.  A published item heads the gallery.  For a non-empty cid and an
    encrypted input that the FHE library accepts, the listing sent by
    [handlePublish] from a real account succeeds on every reachable state
    (below 2^32 items) and returns the next id; the gallery fetched
    afterwards is the gallery fetched before with the new item put in front,
    carrying the publisher, the cid, the block time and the verified key
    handle, and with access exactly for the publisher. *)
Theorem published_item_heads_gallery (w : World) (chain : Env) (h : string)
    (handle : Z) (inputProof : list Z) (storedKey : euint256) (account : option Z) :
  reachable w →
  wf_env w chain →
  h ≠ EmptyString →
  fromExternal chain handle inputProof = Some storedKey →
  getTotalImages w + 1 < 2 ^ 32 →
  ∃ w1 item rest,
    Frontend.handlePublish chain h handle inputProof w
      = Some (Ok (Some (getTotalImages w + 1)), w1)
    ∧ Frontend.fetchGallery w account = Some rest
    ∧ Frontend.fetchGallery w1 account = Some (item :: rest)
    ∧ Frontend.id item = getTotalImages w + 1
    ∧ Frontend.creator item = msg_sender chain
    ∧ Frontend.ipfsHash item = h
    ∧ Frontend.createdAt item = block_timestamp chain
    ∧ Frontend.encryptedKey item = storedKey
    ∧ (Frontend.hasAccess item = true ↔ account = Some (msg_sender chain)).
Proof.
  intros Hr (Hs0 & Hself & _) Hh Hsk Hlt.
  destruct (reachable_Inv w Hr) as ((Hn & Hb) & Hex & _ & Hbal).
  pose proof (reachable_flags_paid w Hr) as Hflags.
  unfold getTotalImages in *.
  set (env := Frontend.publish_env chain).
  set (w1 := list_post env h storedKey (pay_in env w)).
  assert (Hcall : Frontend.handlePublish chain h handle inputProof w
                  = Some (Ok (Some (_nextImageId w + 1)), w1)).
  { unfold Frontend.handlePublish. rewrite bool_decide_false by done. f_equal. fold env.
    rewrite transact_list.
    change (msg_value env) with 0. change (fromExternal env) with (fromExternal chain).
    rewrite bool_decide_false by (specialize (Hbal (msg_sender env)); lia).
    rewrite bool_decide_true by done. rewrite bool_decide_false by done.
    rewrite Hsk.
    replace (_nextImageId w <? MAX_UINT256) with true; [done |].
    symmetry. apply Z.ltb_lt.
    assert (2 ^ 32 < MAX_UINT256) by (by vm_compute). lia. }
  assert (Himg : ∀ imageId, images_at w1 imageId =
            if decide (imageId = _nextImageId w + 1)
            then {| creator := msg_sender chain; ipfsHash := h;
                    encryptedKey := storedKey; createdAt := block_timestamp chain |}
            else images_at w imageId).
  { intros imageId. unfold w1. rewrite images_at_list_post. done. }
  assert (Hpur : ∀ imageId a, purchased_at w1 imageId a = purchased_at w imageId a)
    by reflexivity.
  destruct (fetchAll_Some w account (seqZ 1 (_nextImageId w)))
    as (items & Hall & _ & _).
  { apply Forall_forall. intros imageId Hin. apply elem_of_seqZ in Hin.
    apply Hex. lia. }
  assert (Hold : Frontend.fetchGallery w account = Some (reverse items)).
  { apply fetchGallery_fetchAll; [unfold getTotalImages; lia | done]. }
  assert (Hall1 : Frontend.fetchAll w1 account (seqZ 1 (_nextImageId w)) = Some items).
  { rewrite <- Hall. apply fetchAll_ext, Forall_forall. intros imageId Hin.
    apply elem_of_seqZ in Hin. split; [| done].
    rewrite Himg, decide_False by lia. done. }
  assert (Hnew : ∃ item, Frontend.fetchAll w1 account [_nextImageId w + 1] = Some [item]
            ∧ Frontend.id item = _nextImageId w + 1
            ∧ Frontend.creator item = msg_sender chain
            ∧ Frontend.ipfsHash item = h
            ∧ Frontend.createdAt item = block_timestamp chain
            ∧ Frontend.encryptedKey item = storedKey
            ∧ (Frontend.hasAccess item = true ↔ account = Some (msg_sender chain))).
  { assert (Hno : ∀ a, purchased_at w1 (_nextImageId w + 1) a = false).
    { intros a. rewrite Hpur.
      destruct (purchased_at w (_nextImageId w + 1) a) eqn:Hp; [| done].
      destruct (Hflags _ _ Hp) as (Hc & _). apply Hb in Hc. lia. }
    simpl. unfold Frontend.fetchItem, getImage, hasPurchased. cbv zeta.
    rewrite (Himg (_nextImageId w + 1)), decide_True by done. simpl.
    rewrite !bool_decide_true by done.
    eexists. split; [reflexivity |]. simpl. split_and!; try done.
    destruct account as [a |]; [| done]. rewrite Hno, orb_false_r.
    destruct (decide (msg_sender chain = a)) as [<- | Hne].
    - by rewrite bool_decide_true.
    - rewrite !bool_decide_false by congruence. split; [done | congruence]. }
  destruct Hnew as (item & Hitem & Hfields).
  exists w1, item, (reverse items). split_and!; try done; try apply Hfields.
  rewrite <- reverse_snoc. apply fetchGallery_fetchAll.
  - change (getTotalImages w1) with (_nextImageId w + 1). lia.
  - change (getTotalImages w1) with (_nextImageId w + 1).
    rewrite seqZ_app by lia. replace (1 + _nextImageId w) with (_nextImageId w + 1) by lia.
    by apply fetchAll_app.
Qed.

Lemma published_item_heads_gallery_witness :
  ∃ w1 item rest,
    Frontend.handlePublish (chain_env 2 0) "ipfs://second" 78 [] world2
      = Some (Ok (Some (getTotalImages world2 + 1)), w1)
    ∧ Frontend.fetchGallery world2 (Some 2) = Some rest
    ∧ Frontend.fetchGallery w1 (Some 2) = Some (item :: rest)
    ∧ Frontend.id item = getTotalImages world2 + 1
    ∧ Frontend.creator item = 2
    ∧ Frontend.ipfsHash item = "ipfs://second"
    ∧ Frontend.createdAt item = 1700000000
    ∧ Frontend.encryptedKey item = 78
    ∧ (Frontend.hasAccess item = true ↔ Some 2 = Some 2).
Proof.
  apply (published_item_heads_gallery world2 (chain_env 2 0) "ipfs://second" 78 [] 78
           (Some 2) reachable_world2).
  - by vm_compute.
  - done.
  - reflexivity.
  - by vm_compute.
Defined.

End FrontendProofs.

(** * From publishing to viewing *)

Module PublishAndView.
Import Crypto CryptoProofs CryptoMore PseudoIpfs PseudoIpfsProofs.



End PublishAndView.
